(** * Word frequency analyzer: a shallow embedding of
      [iword_frequency_analyzer.py] and the properties of its three queries.

    The Python module is a pure pipeline

      text --re.findall--> runs of letters --lower--> words
           --Counter--> frequencies --sorted / lookup / slice--> answer

    and the embedding follows it stage by stage.  Python values that can
    reach the functions are modelled by [Py.value]; an exception raised by
    the code is the [Raise] branch of [Py.result]. *)

From Stdlib Require Import String.
From Stdlib Require Import List ZArith NArith Bool Lia Permutation Sorted.
From Equations Require Import Equations.
Import ListNotations.

(** ** The fragment of the Python runtime the module relies on *)

Module Py.

(** A [str] is a sequence of Unicode code points. *)
Definition char := N.
Definition str := list char.

(** The objects a caller may pass.  [VBool] is kept apart from [VInt]
    because [bool] is a subclass of [int]: [isinstance(True, int)] holds.
    [VNone] and [VFloat] stand for the objects that are neither [str] nor
    [int]; a float is carried as an uninterpreted bit pattern, since the
    module never computes with one. *)
Inductive value : Type :=
| VStr (s : str)
| VInt (z : Z)
| VBool (b : bool)
| VNone
| VFloat (bits : N).

Inductive exn : Type :=
| TypeError (msg : string)
| ValueError (msg : string).

Inductive result (A : Type) : Type :=
| Ok (a : A)
| Raise (e : exn).
Arguments Ok {A} a.
Arguments Raise {A} e.

Definition bind {A B} (r : result A) (k : A -> result B) : result B :=
  match r with
  | Ok a => k a
  | Raise e => Raise e
  end.

(** [isinstance(v, str)], with the string it then is. *)
Definition as_str (v : value) : option str :=
  match v with
  | VStr s => Some s
  | _ => None
  end.

(** [isinstance(v, int)], with the index the value denotes in a slice
    ([True] is 1 and [False] is 0). *)
Definition as_int (v : value) : option Z :=
  match v with
  | VInt z => Some z
  | VBool b => Some (if b then 1%Z else 0%Z)
  | _ => None
  end.

Definition isinstance_str (v : value) : bool :=
  match as_str v with Some _ => true | None => false end.

Definition isinstance_int (v : value) : bool :=
  match as_int v with Some _ => true | None => false end.

(** *** Characters and strings *)

Definition is_upper (c : char) : bool := ((65 <=? c) && (c <=? 90))%N.
Definition is_lower (c : char) : bool := ((97 <=? c) && (c <=? 122))%N.

(** The character class [[A-Za-z]]. *)
Definition is_alpha (c : char) : bool := is_upper c || is_lower c.

(** [str.lower] on the ASCII range.  The module applies it only to the
    matches of [[A-Za-z]+], which are ASCII letters throughout (lemma
    [findall_alpha] below), so no other clause of Unicode lowercasing can
    be reached. *)
Definition lower_char (c : char) : char :=
  if is_upper c then (c + 32)%N else c.

Definition lower (s : str) : str := map lower_char s.

Fixpoint str_eqb (a b : str) : bool :=
  match a, b with
  | [], [] => true
  | x :: a', y :: b' => (x =? y)%N && str_eqb a' b'
  | _, _ => false
  end.

(** [a < b] on strings: code point by code point, a proper prefix first. *)
Fixpoint str_ltb (a b : str) : bool :=
  match a, b with
  | _, [] => false
  | [], _ :: _ => true
  | x :: a', y :: b' =>
      if (x <? y)%N then true
      else if (x =? y)%N then str_ltb a' b'
      else false
  end.

(** *** [re.findall(r'[A-Za-z]+', s)] *)

(** The greedy match of [[A-Za-z]*] at the start of [s]: the letters
    consumed and the text left. *)
Fixpoint match_letters (s : str) : str * str :=
  match s with
  | c :: s' =>
      if is_alpha c
      then let (m, r) := match_letters s' in (c :: m, r)
      else ([], s)
  | [] => ([], [])
  end.

(** The scan: where the pattern matches, the match is emitted and the scan
    resumes behind it; where it does not, the scan moves on by one
    character. *)
Equations? findall (s : str) : list str by wf (length s) lt :=
  findall [] := [];
  findall (c :: s') :=
    if is_alpha c
    then (c :: fst (match_letters s')) :: findall (snd (match_letters s'))
    else findall s'.
Proof.
  assert (shorter : forall t, length (snd (match_letters t)) <= length t).
  { induction t as [|d t IH]; simpl; auto.
    destruct (is_alpha d); simpl; auto.
    destruct (match_letters t); simpl in *; lia. }
  specialize (shorter s'). lia.
Qed.

(** *** [dict] and [collections.Counter] *)

(** A dict keeps its items in insertion order; assigning to a key that is
    present keeps its place. *)
Definition dict := list (str * Z).

Fixpoint dict_get (d : dict) (k : str) (default : Z) : Z :=
  match d with
  | [] => default
  | (k', v) :: d' => if str_eqb k' k then v else dict_get d' k default
  end.

Fixpoint dict_set (d : dict) (k : str) (v : Z) : dict :=
  match d with
  | [] => [(k, v)]
  | (k', v') :: d' =>
      if str_eqb k' k then (k', v) :: d' else (k', v') :: dict_set d' k v
  end.

(** [Counter(words)]: for each element, [self[elem] = self.get(elem, 0) + 1]. *)
Definition count_element (d : dict) (w : str) : dict :=
  dict_set d w (dict_get d w 0 + 1)%Z.

Definition Counter (words : list str) : dict :=
  fold_left count_element words [].

(** [Counter.__getitem__]: a missing key reads as 0 and is not stored. *)
Definition Counter_getitem (d : dict) (k : str) : Z := dict_get d k 0%Z.

(** *** [sorted] and slicing *)

Section Sorting.
Context {A K : Type} (lt : K -> K -> bool) (key : A -> K).

(** [x] goes in front of the first element whose key is not below its
    own, so elements with equal keys keep their order. *)
Fixpoint insert (x : A) (l : list A) : list A :=
  match l with
  | [] => [x]
  | y :: l' => if lt (key y) (key x) then y :: insert x l' else x :: l
  end.

(** [sorted(l, key=key)]: a stable sort that compares keys with [<]. *)
Definition sorted (l : list A) : list A := fold_right insert [] l.

(** [sorted(l, key=key, reverse=True)]: the list is reversed, sorted and
    reversed again, which keeps equal keys in their original order. *)
Definition sorted_reverse (l : list A) : list A := rev (sorted (rev l)).

End Sorting.

(** The stop index of [l[:n]] for a list of length [len]: a negative [n]
    counts from the end, and the result is clipped to [0 .. len]. *)
Definition slice_stop (len : nat) (n : Z) : nat :=
  if (n <? 0)%Z
  then Z.to_nat (Z.max 0 (n + Z.of_nat len))
  else Nat.min (Z.to_nat n) len.

Definition slice_to {A} (l : list A) (n : Z) : list A :=
  firstn (slice_stop (length l) n) l.

(** Order on the tuples [(int, str)] used as sort keys. *)
Definition tuple_ltb (a b : Z * str) : bool :=
  if (fst a <? fst b)%Z then true
  else if (fst a =? fst b)%Z then str_ltb (snd a) (snd b)
  else false.

End Py.

Import Py.

(** ** The module [iword_frequency_analyzer] *)

Definition extract_valid_words_from_text_and_convert_to_lower_case
  (text : value) : result (list str) :=
  match as_str text with
  | None =>
      Raise (TypeError "Invalid input text: Input text should be a string")
  | Some s =>
      match s with
      | [] =>
          Raise (ValueError "Invalid input text: Input text should not be empty")
      | _ :: _ =>
          let valid_words_list := findall s in
          Ok (map lower valid_words_list)
      end
  end.

(** The return type [IWordFrequency = List[Tuple[str, int]]]. *)
Definition IWordFrequency := list (str * Z).

Module IWordFrequencyAnalyzer.

(** [operator.itemgetter(1)] on a pair. *)
Definition itemgetter_1 (x : str * Z) : Z := snd x.

Definition calculate_highest_frequency (text : value) : result Z :=
  bind (extract_valid_words_from_text_and_convert_to_lower_case text)
    (fun valid_words_list =>
       let word_frequencies := Counter valid_words_list in
       let sorted_word_frequencies :=
         sorted_reverse Z.ltb itemgetter_1 word_frequencies in
       match sorted_word_frequencies with
       | [] => Ok 0%Z
       | first :: _ => Ok (snd first)
       end).

Definition calculate_frequency_for_word (text word : value) : result Z :=
  match as_str word with
  | None => Raise (TypeError "Invalid input: word should be a string")
  | Some w =>
      bind (extract_valid_words_from_text_and_convert_to_lower_case text)
        (fun valid_words_list =>
           let word_frequencies := Counter valid_words_list in
           Ok (Counter_getitem word_frequencies w))
  end.

(** The sort key [lambda x: (-x[1], x[0])]. *)
Definition rank_key (x : str * Z) : Z * str := ((- snd x)%Z, fst x).

Definition calculate_most_frequent_n_words (text n : value)
  : result IWordFrequency :=
  match as_int n with
  | None => Raise (TypeError "Invalid input: n should be an integer")
  | Some stop =>
      bind (extract_valid_words_from_text_and_convert_to_lower_case text)
        (fun valid_words_list =>
           let word_frequencies := Counter valid_words_list in
           let sorted_word_frequencies :=
             sorted tuple_ltb rank_key word_frequencies in
           Ok (slice_to sorted_word_frequencies stop))
  end.

End IWordFrequencyAnalyzer.

Import IWordFrequencyAnalyzer.

(** ** Vocabulary of the specification *)

Definition str_eq_dec : forall a b : str, {a = b} + {a <> b} :=
  list_eq_dec N.eq_dec.

(** A letter is a character of [A-Z] or [a-z]; anything else separates. *)
Definition letter (c : char) : Prop := is_alpha c = true.
Definition separator (c : char) : Prop := is_alpha c = false.

(** A Word: one or more lowercase ASCII letters. *)
Definition Word (w : str) : Prop :=
  w <> [] /\ Forall (fun c => is_lower c = true) w.

(** The text behind a run is exhausted or goes on with a separator. *)
Definition run_stops (s : str) : Prop :=
  match s with
  | [] => True
  | c :: _ => separator c
  end.

(** [letter_runs text runs]: [text] is cut into separators, which are
    dropped, and non-empty runs of letters, each of which ends where the
    text ends or a separator follows; [runs] lists the runs from left to
    right.  A run starts at the start of the text or behind a separator,
    so it cannot be extended on either side. *)
Inductive letter_runs : str -> list str -> Prop :=
| runs_end : letter_runs [] []
| runs_separator c s runs :
    separator c -> letter_runs s runs -> letter_runs (c :: s) runs
| runs_run w s runs :
    w <> [] -> Forall letter w -> run_stops s -> letter_runs s runs ->
    letter_runs (w ++ s) (w :: runs).

(** Lexicographic order on strings. *)
Inductive lex_lt : str -> str -> Prop :=
| lex_prefix c b : lex_lt [] (c :: b)
| lex_head x y a b : (x < y)%N -> lex_lt (x :: a) (y :: b)
| lex_tail x a b : lex_lt a b -> lex_lt (x :: a) (x :: b).

(** The ranking order of the entries: the larger count first and, for
    equal counts, the lexicographically smaller word first. *)
Definition ranks_before (a b : str * Z) : Prop :=
  (snd a > snd b)%Z \/ (snd a = snd b /\ lex_lt (fst a) (fst b)).

(** Every two neighbours of [l] are related by [R]. *)
Definition adjacent_pairs {A} (R : A -> A -> Prop) (l : list A) : Prop :=
  forall i a b, nth_error l i = Some a -> nth_error l (S i) = Some b -> R a b.

(** The FrequencyMap of a text: the counter over its extracted words. *)
Definition FrequencyMap (text : str) : dict :=
  Counter (map lower (findall text)).

(** The number of times [w] occurs in a sequence of words. *)
Definition occurrences (words : list str) (w : str) : Z :=
  Z.of_nat (count_occ str_eq_dec words w).

(** The sum of the counts stored in a map. *)
Definition total_count (d : dict) : Z :=
  fold_right Z.add 0%Z (map snd d).

(** The first [n] entries of a list, none when [n] is not positive. *)
Definition take {A} (n : Z) (l : list A) : list A := firstn (Z.to_nat n) l.

(** [a] may stand in front of [b] in a list sorted by [key]: the key of
    [b] is not below that of [a]. *)
Definition key_le {A K} (lt : K -> K -> bool) (key : A -> K) (a b : A) : Prop :=
  lt (key b) (key a) = false.

(** A character and its lowercase form: a lowercase letter that is either
    the character itself or the counterpart of an uppercase one. *)
Definition lowercase_of (c c' : char) : Prop :=
  is_lower c' = true /\
  (c' = c \/ (is_upper c = true /\ c' = (c + 32)%N)).

Definition lowercased (run word : str) : Prop := Forall2 lowercase_of run word.

(** The two error kinds of the specification. *)
Definition InvalidType {A} (r : result A) : Prop :=
  exists msg, r = Raise (TypeError msg).
Definition EmptyInput {A} (r : result A) : Prop :=
  exists msg, r = Raise (ValueError msg).

(** Two characters that differ at most in the case of an ASCII letter. *)
Definition same_case (c d : char) : Prop := lower_char c = lower_char d.

(** Two texts that differ at most in the case of their ASCII letters. *)
Definition same_case_text (s t : str) : Prop := Forall2 same_case s t.

(** [sep.join(words)]. *)
Fixpoint join (sep : str) (words : list str) : str :=
  match words with
  | [] => []
  | w :: rest =>
      match rest with
      | [] => w
      | _ :: _ => w ++ sep ++ join sep rest
      end
  end.

(** ** The unit tests of the repository, replayed on the embedding *)

(** A text literal: the code points of an ASCII string. *)
Fixpoint text_of (s : string) : str :=
  match s with
  | EmptyString => []
  | String c s' => Ascii.N_of_ascii c :: text_of s'
  end.

Example test_calculate_highest_frequency_returns_highest_frequency :
  calculate_highest_frequency
    (VStr (text_of "abc def ghi jkl mno pqrs tuv wxyz ABC DEF GHI JKL MNO PQRS TUV WXYZ !"
           ++ [34; 167]%N ++ text_of " $%& /() =?* <> #|; "
           ++ [178; 179]%N ++ text_of "~ @`"))
  = Ok 2%Z.
Proof. reflexivity. Qed.

Example test_calculate_frequency_for_word_returns_the_frequency_of_the_given_word :
  calculate_frequency_for_word
    (VStr (text_of "I8H70ruYfw KizcotV5vA ajlWht7Giu sledxCTcjh 49LmbhVraC nBO5eAtkpA ebBUruVaZl Ws0cDjQAfi GNijGDnVh"))
    (VStr (text_of "ruyfw"))
  = Ok 1%Z.
Proof. reflexivity. Qed.

Example test_calculate_most_frequent_n_words_returns_a_list_of_the_most_frequent_n_words :
  calculate_most_frequent_n_words
    (VStr (text_of "Ben! Ben!2 Eze?; Eze km kl0 kl jk nm 9009 )&^!@ 8977 ")) (VInt 6)
  = Ok [(text_of "ben", 2%Z); (text_of "eze", 2%Z); (text_of "kl", 2%Z);
        (text_of "jk", 1%Z); (text_of "km", 1%Z); (text_of "nm", 1%Z)].
Proof. reflexivity. Qed.

Example test_extract_valid_words_and_convert_to_lower_case_returns_valid_words_in_lower_case :
  extract_valid_words_from_text_and_convert_to_lower_case
    (VStr (text_of "uh0KT1HjNN CWcBi2Kgyv i5jEagI9tw YXPXmsS0ve ZsclwLHJ8R IkOcNiLsLs 14pH71XVN1 fIXckrG63MCzKPE47P2B"))
  = Ok (map text_of
          ["uh"; "kt"; "hjnn"; "cwcbi"; "kgyv"; "i"; "jeagi"; "tw"; "yxpxmss";
           "ve"; "zsclwlhj"; "r"; "ikocnilsls"; "ph"; "xvn"; "fixckrg";
           "mczkpe"; "p"; "b"]%string).
Proof. reflexivity. Qed.

Example test_methods_handle_incorrect_inputs_correctly :
  let blank := VStr (text_of "    ") in
  let no_valid_words := VStr (text_of "789 :.,/ 099*** %$# @56") in
  let testWord := VStr (text_of "testWord") in
  calculate_highest_frequency blank = Ok 0%Z /\
  calculate_frequency_for_word blank testWord = Ok 0%Z /\
  calculate_most_frequent_n_words blank (VInt 4) = Ok [] /\
  calculate_highest_frequency no_valid_words = Ok 0%Z /\
  calculate_frequency_for_word no_valid_words testWord = Ok 0%Z /\
  calculate_most_frequent_n_words no_valid_words (VInt 4) = Ok [].
Proof. repeat split; reflexivity. Qed.

Example test_methods_raise_ValueError_exception_when_input_is_empty :
  let empty := ValueError "Invalid input text: Input text should not be empty" in
  calculate_highest_frequency (VStr []) = Raise empty /\
  calculate_frequency_for_word (VStr []) (VStr (text_of "test")) = Raise empty /\
  calculate_most_frequent_n_words (VStr []) (VInt 2) = Raise empty.
Proof. repeat split; reflexivity. Qed.

Example test_methods_raise_TypeError_exception_when_input_is_not_a_string :
  let not_text := TypeError "Invalid input text: Input text should be a string" in
  calculate_highest_frequency (VInt 6) = Raise not_text /\
  calculate_frequency_for_word VNone (VStr (text_of "test")) = Raise not_text /\
  calculate_most_frequent_n_words (VInt 100) (VInt 2) = Raise not_text /\
  calculate_most_frequent_n_words (VStr (text_of "test text")) (VStr (text_of "test"))
  = Raise (TypeError "Invalid input: n should be an integer") /\
  calculate_frequency_for_word (VStr (text_of "Test text")) (VInt 6)
  = Raise (TypeError "Invalid input: word should be a string").
Proof. repeat split; reflexivity. Qed.

(** ** Characters and strings *)

Lemma is_alpha_cases c : is_alpha c = true -> is_upper c = true \/ is_lower c = true.
Proof. unfold is_alpha. apply orb_prop. Qed.

Lemma upper_not_lower c : is_upper c = true -> is_lower c = false.
Proof.
  unfold is_upper, is_lower. intros H. apply andb_prop in H.
  destruct H as [_ H]. apply N.leb_le in H.
  apply andb_false_intro1. apply N.leb_gt. lia.
Qed.

Lemma lower_is_alpha c : is_lower c = true -> is_alpha c = true.
Proof. unfold is_alpha. intros ->. apply orb_true_r. Qed.

(** Lowercasing a letter yields a lowercase letter: an uppercase one moves
    to its counterpart 32 places up, a lowercase one stays. *)
Lemma lower_char_letter c : letter c -> is_lower (lower_char c) = true.
Proof.
  intros H. apply is_alpha_cases in H. unfold lower_char.
  destruct (is_upper c) eqn:U.
  - unfold is_upper, is_lower in *. apply andb_prop in U.
    destruct U as [U1 U2]. apply N.leb_le in U1, U2.
    apply andb_true_intro. split; apply N.leb_le; lia.
  - destruct H; [discriminate | assumption].
Qed.

Lemma lower_char_fixes_lowercase c : is_lower c = true -> lower_char c = c.
Proof.
  intros H. unfold lower_char. destruct (is_upper c) eqn:U; auto.
  apply upper_not_lower in U. congruence.
Qed.

Lemma lower_run w : w <> [] -> Forall letter w -> Word (lower w).
Proof.
  intros Hne Hall. split.
  - destruct w; [congruence | discriminate].
  - unfold lower. apply Forall_map.
    eapply Forall_impl; [| exact Hall]. apply lower_char_letter.
Qed.

Lemma str_eqb_eq a b : str_eqb a b = true <-> a = b.
Proof.
  revert b. induction a as [|x a IH]; destruct b as [|y b]; simpl;
    try (split; [discriminate | congruence]); [tauto |].
  rewrite andb_true_iff, N.eqb_eq, IH. split.
  - intros [-> ->]. reflexivity.
  - intros E. inversion E. auto.
Qed.

Lemma str_eqb_refl a : str_eqb a a = true.
Proof. apply str_eqb_eq. reflexivity. Qed.

Lemma str_eqb_neq a b : str_eqb a b = false <-> a <> b.
Proof.
  rewrite <- str_eqb_eq. destruct (str_eqb a b); split; congruence.
Qed.

Lemma str_ltb_lex a b : str_ltb a b = true <-> lex_lt a b.
Proof.
  revert b. induction a as [|x a IH]; destruct b as [|y b]; simpl.
  - split; [discriminate | inversion 1].
  - split; [constructor | reflexivity].
  - split; [discriminate | inversion 1].
  - destruct (N.ltb_spec x y) as [L|L].
    + split; [intros _; now constructor | reflexivity].
    + destruct (N.eqb_spec x y) as [->|NE].
      * rewrite IH. split; [now constructor |].
        inversion 1; subst; [lia | assumption].
      * split; [discriminate |]. inversion 1; subst; [lia | congruence].
Qed.

Lemma lex_lt_irrefl a : ~ lex_lt a a.
Proof. induction a; inversion 1; subst; [lia | auto]. Qed.

Lemma lex_lt_trans a b c : lex_lt a b -> lex_lt b c -> lex_lt a c.
Proof.
  intros H. revert c. induction H; intros c' H'; inversion H'; subst;
    try (constructor; auto; lia).
Qed.

Lemma lex_lt_total a b : lex_lt a b \/ a = b \/ lex_lt b a.
Proof.
  revert b. induction a as [|x a IH]; destruct b as [|y b].
  - auto.
  - left. constructor.
  - right. right. constructor.
  - destruct (N.lt_total x y) as [L|[->|L]].
    + left. now constructor.
    + destruct (IH b) as [L|[->|L]]; [left | auto | right; right];
        now constructor.
    + right. right. now constructor.
Qed.

(** ** The tokenizer *)

Lemma match_letters_split s :
  s = fst (match_letters s) ++ snd (match_letters s) /\
  Forall letter (fst (match_letters s)) /\
  run_stops (snd (match_letters s)).
Proof.
  induction s as [|c s (E & L & R)]; simpl.
  - repeat split. constructor.
  - destruct (is_alpha c) eqn:Hc.
    + destruct (match_letters s) as [m r]; simpl in *.
      repeat split; [congruence | now constructor | assumption].
    + simpl. repeat split; [constructor | exact Hc].
Qed.

Lemma match_letters_run w s :
  Forall letter w -> run_stops s -> match_letters (w ++ s) = (w, s).
Proof.
  intros Hw Hs. induction Hw as [|c w Hc _ IH]; simpl.
  - destruct s as [|d s]; [reflexivity |].
    simpl in *. unfold separator in Hs. now rewrite Hs.
  - unfold letter in Hc. now rewrite Hc, IH.
Qed.

Lemma findall_separator c s : separator c -> findall (c :: s) = findall s.
Proof. intros H. simp findall. unfold separator in H. now rewrite H. Qed.

Lemma findall_run w s :
  w <> [] -> Forall letter w -> run_stops s ->
  findall (w ++ s) = w :: findall s.
Proof.
  intros Hne Hw Hs. destruct w as [|c w]; [congruence |].
  inversion Hw as [|? ? Hc Hw']; subst. simpl. simp findall.
  unfold letter in Hc. rewrite Hc.
  now rewrite (match_letters_run w s Hw' Hs).
Qed.

(** The scan cuts the text into its runs of letters... *)
Lemma findall_letter_runs s : letter_runs s (findall s).
Proof.
  remember (length s) as n eqn:Hn. revert s Hn.
  induction n as [n IH] using lt_wf_ind. intros [|c s] Hn.
  - simp findall. constructor.
  - simp findall. destruct (is_alpha c) eqn:Hc.
    + destruct (match_letters_split s) as (E & L & R).
      assert (Hlen : length (snd (match_letters s)) < n).
      { subst n. simpl. rewrite E at 2. rewrite length_app. lia. }
      rewrite E at 1.
      apply (runs_run (c :: fst (match_letters s))); auto.
      * discriminate.
      * eapply IH; [exact Hlen | reflexivity].
    + apply runs_separator; [exact Hc |].
      eapply IH; [| reflexivity]. subst n. simpl. lia.
Qed.

(** ... and no other cut of the text into runs exists. *)
Lemma letter_runs_unique s runs : letter_runs s runs -> runs = findall s.
Proof.
  induction 1 as [|c s runs Hc _ IH|w s runs Hne Hw Hs _ IH].
  - now simp findall.
  - now rewrite findall_separator.
  - now rewrite findall_run, IH.
Qed.

(** Every match consists of letters, so [lower] only ever meets ASCII. *)
Lemma findall_alpha s : Forall (fun w => w <> [] /\ Forall letter w) (findall s).
Proof.
  induction (findall_letter_runs s) as [| |w s runs Hne Hw _ _ IH].
  - constructor.
  - assumption.
  - constructor; [split |]; assumption.
Qed.

Lemma extracted_words text : Forall Word (map lower (findall text)).
Proof.
  apply Forall_map. eapply Forall_impl; [| apply findall_alpha].
  intros w [Hne Hw]. now apply lower_run.
Qed.

(** ** Dictionaries and the counter *)

Lemma dict_get_set_same d k v dflt : dict_get (dict_set d k v) k dflt = v.
Proof.
  induction d as [|[k' v'] d IH]; simpl.
  - now rewrite str_eqb_refl.
  - destruct (str_eqb k' k) eqn:E; simpl; now rewrite E.
Qed.

Lemma dict_get_set_other d k v k' dflt :
  k <> k' -> dict_get (dict_set d k v) k' dflt = dict_get d k' dflt.
Proof.
  intros NE. induction d as [|[k0 v0] d IH]; simpl.
  - apply str_eqb_neq in NE. now rewrite NE.
  - destruct (str_eqb k0 k) eqn:E; simpl.
    + apply str_eqb_eq in E. subst k0.
      apply str_eqb_neq in NE. now rewrite NE.
    + now rewrite IH.
Qed.

Lemma dict_set_keys d k v k' :
  In k' (map fst (dict_set d k v)) <-> k' = k \/ In k' (map fst d).
Proof.
  induction d as [|[k0 v0] d IH]; simpl.
  - intuition.
  - destruct (str_eqb k0 k) eqn:E; simpl.
    + apply str_eqb_eq in E. subst k0. intuition.
    + rewrite IH. intuition.
Qed.

Lemma dict_set_NoDup d k v :
  NoDup (map fst d) -> NoDup (map fst (dict_set d k v)).
Proof.
  induction d as [|[k0 v0] d IH]; simpl; intros ND.
  - constructor; [intros [] | constructor].
  - destruct (str_eqb k0 k) eqn:E; simpl; [exact ND |].
    inversion ND as [|? ? Hnot ND']; subst. constructor; [| auto].
    rewrite dict_set_keys. intros [-> | H]; [| contradiction].
    rewrite str_eqb_refl in E. discriminate.
Qed.

(** With unique keys, the items are what [dict_get] reads. *)
Lemma dict_items d k v dflt :
  NoDup (map fst d) ->
  (In (k, v) d <-> In k (map fst d) /\ dict_get d k dflt = v).
Proof.
  induction d as [|[k0 v0] d IH]; simpl; intros ND.
  - tauto.
  - inversion ND as [|? ? Hnot ND']; subst.
    destruct (str_eqb k0 k) eqn:E.
    + apply str_eqb_eq in E. subst k0. split.
      * intros [H | H]; [inversion H; auto |].
        exfalso. apply Hnot. now apply (in_map fst) in H.
      * intros [_ ->]. now left.
    + apply str_eqb_neq in E. rewrite (IH ND'). split.
      * intros [H | H]; [inversion H; congruence | tauto].
      * intros [[H | H] Hv]; [congruence | tauto].
Qed.

Lemma dict_get_absent d k dflt :
  ~ In k (map fst d) -> dict_get d k dflt = dflt.
Proof.
  induction d as [|[k0 v0] d IH]; simpl; intros H; auto.
  destruct (str_eqb k0 k) eqn:E.
  - apply str_eqb_eq in E. tauto.
  - apply IH. tauto.
Qed.

Lemma total_count_set d k v :
  total_count (dict_set d k v) = (total_count d - dict_get d k 0 + v)%Z.
Proof.
  unfold total_count. induction d as [|[k0 v0] d IH]; simpl.
  - lia.
  - destruct (str_eqb k0 k); simpl; lia.
Qed.

Lemma Counter_snoc words w :
  Counter (words ++ [w]) = count_element (Counter words) w.
Proof. unfold Counter. now rewrite fold_left_app. Qed.

Lemma occurrences_snoc words x w :
  occurrences (words ++ [x]) w =
  (occurrences words w + if str_eq_dec x w then 1 else 0)%Z.
Proof.
  unfold occurrences. rewrite count_occ_app. simpl.
  destruct (str_eq_dec x w); lia.
Qed.

(** Each word counts once for itself: the counter reads the number of
    occurrences of a word in the sequence. *)
Lemma Counter_get words w : dict_get (Counter words) w 0 = occurrences words w.
Proof.
  induction words as [|x words IH] using rev_ind.
  - reflexivity.
  - rewrite Counter_snoc, occurrences_snoc. unfold count_element.
    destruct (str_eq_dec x w) as [->|NE].
    + rewrite dict_get_set_same, IH. reflexivity.
    + rewrite dict_get_set_other, IH by assumption. lia.
Qed.

Lemma Counter_NoDup words : NoDup (map fst (Counter words)).
Proof.
  induction words as [|x words IH] using rev_ind.
  - constructor.
  - rewrite Counter_snoc. now apply dict_set_NoDup.
Qed.

Lemma Counter_keys words w : In w (map fst (Counter words)) <-> In w words.
Proof.
  induction words as [|x words IH] using rev_ind.
  - reflexivity.
  - rewrite Counter_snoc. unfold count_element.
    rewrite dict_set_keys, IH, in_app_iff. simpl. intuition.
Qed.

Lemma Counter_items words w c :
  In (w, c) (Counter words) <-> In w words /\ c = occurrences words w.
Proof.
  rewrite (dict_items _ _ _ 0%Z (Counter_NoDup words)).
  rewrite Counter_keys, Counter_get. intuition.
Qed.

Lemma Counter_total words :
  total_count (Counter words) = Z.of_nat (length words).
Proof.
  induction words as [|x words IH] using rev_ind.
  - reflexivity.
  - rewrite Counter_snoc. unfold count_element.
    rewrite total_count_set, IH, length_app. simpl. lia.
Qed.

Lemma occurrences_positive words w : In w words -> (1 <= occurrences words w)%Z.
Proof.
  intros H. unfold occurrences.
  apply (count_occ_In str_eq_dec) in H. lia.
Qed.

Lemma occurrences_absent words w : ~ In w words -> occurrences words w = 0%Z.
Proof.
  intros H. unfold occurrences.
  apply (count_occ_not_In str_eq_dec) in H. now rewrite H.
Qed.

Lemma Counter_empty words : Counter words = [] <-> words = [].
Proof.
  split; [| now intros ->].
  destruct words as [|w words]; [reflexivity |]. intros E.
  assert (H : In w (map fst (Counter (w :: words)))).
  { apply Counter_keys. now left. }
  rewrite E in H. destruct H.
Qed.

(** ** Sorting *)

Section SortedFacts.
Context {A K : Type} (lt : K -> K -> bool) (key : A -> K).
Hypothesis lt_asym : forall x y, lt x y = true -> lt y x = false.
Hypothesis lt_negtrans :
  forall x y z, lt y x = false -> lt z y = false -> lt z x = false.

Local Abbreviation key_le := (key_le lt key).

Lemma insert_perm x l : Permutation (insert lt key x l) (x :: l).
Proof.
  induction l as [|y l IH]; simpl; [reflexivity |].
  destruct (lt (key y) (key x)); [| reflexivity].
  rewrite IH. apply perm_swap.
Qed.

Lemma sorted_perm l : Permutation (sorted lt key l) l.
Proof.
  induction l as [|x l IH]; simpl; [reflexivity |].
  rewrite insert_perm. now constructor.
Qed.

Lemma insert_sorted x l :
  StronglySorted key_le l -> StronglySorted key_le (insert lt key x l).
Proof.
  induction 1 as [|y l Hl IH Hy]; simpl.
  - repeat constructor.
  - destruct (lt (key y) (key x)) eqn:E.
    + constructor; [exact IH |].
      rewrite Forall_forall in *. intros z Hz.
      apply (Permutation_in _ (insert_perm x l)) in Hz.
      destruct Hz as [<- | Hz]; [| auto].
      unfold key_le. now apply lt_asym.
    + constructor; [now constructor |].
      constructor; [exact E |].
      rewrite Forall_forall in *. intros z Hz.
      unfold key_le in *. eapply lt_negtrans; [exact E | auto].
Qed.

Lemma sorted_sorted l : StronglySorted key_le (sorted lt key l).
Proof.
  induction l as [|x l IH]; simpl; [constructor | now apply insert_sorted].
Qed.

End SortedFacts.

Section OrderedLists.
Context {A : Type} (R : A -> A -> Prop).

Lemma firstn_incl k (l : list A) x : In x (firstn k l) -> In x l.
Proof.
  intros H. rewrite <- (firstn_skipn k l). apply in_or_app. now left.
Qed.

Lemma StronglySorted_firstn k l :
  StronglySorted R l -> StronglySorted R (firstn k l).
Proof.
  intros H. revert k. induction H as [|x l _ IH Hx]; intros [|k]; simpl;
    try constructor; auto.
  rewrite Forall_forall in *. intros y Hy. apply Hx.
  eapply firstn_incl. exact Hy.
Qed.

Lemma StronglySorted_adjacent l : StronglySorted R l -> adjacent_pairs R l.
Proof.
  induction 1 as [|x l _ IH Hx]; intros i a b Ha Hb.
  - destruct i; discriminate.
  - destruct i as [|i].
    + injection Ha as <-. rewrite Forall_forall in Hx.
      apply Hx. apply (nth_error_In l 0). exact Hb.
    + apply (IH i); assumption.
Qed.

Hypothesis R_irrefl : forall a, ~ R a a.
Hypothesis R_trans : forall a b c, R a b -> R b c -> R a c.

(** A strict order leaves one way to sort a collection. *)
Lemma sorted_unique l1 l2 :
  Permutation l1 l2 -> StronglySorted R l1 -> StronglySorted R l2 -> l1 = l2.
Proof.
  revert l2. induction l1 as [|a l1 IH]; intros l2 P S1 S2.
  - apply Permutation_nil in P. now subst.
  - destruct l2 as [|b l2].
    + apply Permutation_sym, Permutation_nil in P. discriminate.
    + inversion S1 as [|? ? S1' F1]; inversion S2 as [|? ? S2' F2]; subst.
      rewrite Forall_forall in F1, F2.
      assert (E : a = b).
      { assert (Ha : In a (b :: l2))
          by (apply (Permutation_in a P); now left).
        assert (Hb : In b (a :: l1))
          by (apply (Permutation_in b (Permutation_sym P)); now left).
        destruct Ha as [<- | Ha]; [reflexivity |].
        destruct Hb as [<- | Hb]; [reflexivity |].
        exfalso. apply (R_irrefl a). eapply R_trans; eauto. }
      subst b. f_equal. apply IH; auto.
      eapply Permutation_cons_inv. exact P.
Qed.

End OrderedLists.

(** ** The ranking order *)

Lemma ranks_before_irrefl a : ~ ranks_before a a.
Proof.
  intros [H | [_ H]]; [lia | now apply lex_lt_irrefl in H].
Qed.

Lemma ranks_before_trans a b c :
  ranks_before a b -> ranks_before b c -> ranks_before a c.
Proof.
  unfold ranks_before. intros [H1 | [E1 L1]] [H2 | [E2 L2]];
    try (left; lia).
  right. split; [congruence | eapply lex_lt_trans; eauto].
Qed.

Lemma ranks_before_total a b :
  ranks_before a b \/ a = b \/ ranks_before b a.
Proof.
  destruct a as [wa ca], b as [wb cb]. unfold ranks_before. simpl.
  destruct (Z.lt_total ca cb) as [L | [-> | L]].
  - right. right. left. lia.
  - destruct (lex_lt_total wa wb) as [L | [-> | L]]; auto.
  - left. left. lia.
Qed.

(** The comparison of the sort keys [(-count, word)] decides the ranking. *)
Lemma tuple_ltb_rank a b :
  tuple_ltb (rank_key a) (rank_key b) = true <-> ranks_before a b.
Proof.
  unfold tuple_ltb, rank_key, ranks_before. simpl.
  destruct (Z.ltb_spec (- snd a) (- snd b)) as [L | L].
  - split; [left; lia | reflexivity].
  - destruct (Z.eqb_spec (- snd a) (- snd b)) as [E | NE].
    + rewrite str_ltb_lex. split; [right; split; [lia | assumption] |].
      intros [H | [_ H]]; [lia | assumption].
    + split; [discriminate | intros [H | [H _]]; lia].
Qed.

Lemma tuple_ltb_rank_false a b :
  tuple_ltb (rank_key a) (rank_key b) = false <-> ~ ranks_before a b.
Proof.
  rewrite <- tuple_ltb_rank.
  destruct (tuple_ltb (rank_key a) (rank_key b)); split; congruence.
Qed.

Lemma key_le_ranks a b :
  key_le tuple_ltb rank_key a b -> fst a <> fst b -> ranks_before a b.
Proof.
  unfold key_le. rewrite tuple_ltb_rank_false. intros H NE.
  destruct (ranks_before_total a b) as [L | [-> | L]]; tauto.
Qed.

(** Every key is the key of some entry, so the order facts carry over to
    the comparison of keys. *)
Lemma tuple_is_rank_key (k : Z * str) : k = rank_key (snd k, (- fst k)%Z).
Proof. destruct k as [z w]. unfold rank_key. simpl. f_equal. lia. Qed.

Lemma tuple_ltb_asym x y : tuple_ltb x y = true -> tuple_ltb y x = false.
Proof.
  rewrite (tuple_is_rank_key x), (tuple_is_rank_key y).
  rewrite tuple_ltb_rank, tuple_ltb_rank_false. intros H H'.
  exact (ranks_before_irrefl _ (ranks_before_trans _ _ _ H H')).
Qed.

Lemma tuple_ltb_negtrans x y z :
  tuple_ltb y x = false -> tuple_ltb z y = false -> tuple_ltb z x = false.
Proof.
  rewrite (tuple_is_rank_key x), (tuple_is_rank_key y), (tuple_is_rank_key z).
  rewrite !tuple_ltb_rank_false. intros H1 H2 H3.
  destruct (ranks_before_total (snd y, (- fst y)%Z) (snd x, (- fst x)%Z))
    as [L | [E | L]].
  - tauto.
  - rewrite E in H2. tauto.
  - apply H2. eapply ranks_before_trans; eauto.
Qed.

Lemma rank_sort_sorted (l : dict) :
  StronglySorted (key_le tuple_ltb rank_key) (sorted tuple_ltb rank_key l).
Proof.
  apply sorted_sorted; [exact tuple_ltb_asym | exact tuple_ltb_negtrans].
Qed.

(** Sorting a map, whose keys are distinct, ranks its entries strictly. *)
Lemma rank_sort_ranked (d : dict) :
  NoDup (map fst d) ->
  StronglySorted ranks_before (sorted tuple_ltb rank_key d).
Proof.
  intros ND.
  assert (ND' : NoDup (map fst (sorted tuple_ltb rank_key d))).
  { eapply Permutation_NoDup; [| exact ND].
    apply Permutation_map, Permutation_sym, sorted_perm. }
  pose proof (rank_sort_sorted d) as S. revert ND'.
  induction S as [|a l _ IH Ha]; simpl; intros ND'; [constructor |].
  inversion ND' as [|? ? Hnot ND'']; subst.
  constructor; [auto |].
  rewrite Forall_forall in *. intros b Hb.
  apply key_le_ranks; [auto |].
  intros E. apply Hnot. rewrite E. now apply in_map.
Qed.

(** The full ranked list of a text. *)
Lemma ranking_unique (d r : dict) :
  NoDup (map fst d) -> Permutation r d -> StronglySorted ranks_before r ->
  r = sorted tuple_ltb rank_key d.
Proof.
  intros ND P S.
  apply (sorted_unique ranks_before ranks_before_irrefl ranks_before_trans);
    [| exact S | now apply rank_sort_ranked].
  rewrite P. apply Permutation_sym, sorted_perm.
Qed.

(** ** Slices *)

Lemma slice_to_nonneg {A} (l : list A) n :
  (0 <= n)%Z -> slice_to l n = take n l.
Proof.
  intros H. unfold slice_to, slice_stop, take.
  destruct (Z.ltb_spec n 0); [lia |].
  destruct (Nat.le_ge_cases (Z.to_nat n) (length l)) as [L | L].
  - now rewrite Nat.min_l.
  - rewrite Nat.min_r by assumption.
    now rewrite firstn_all, firstn_all2.
Qed.

Lemma slice_to_negative {A} (l : list A) n :
  (n < 0)%Z -> slice_to l n = firstn (length l - Z.to_nat (- n)) l.
Proof.
  intros H. unfold slice_to, slice_stop.
  destruct (Z.ltb_spec n 0); [| lia]. f_equal. lia.
Qed.

Lemma slice_to_all {A} (l : list A) n :
  (Z.of_nat (length l) <= n)%Z -> slice_to l n = l.
Proof.
  intros H. rewrite slice_to_nonneg by lia.
  unfold take. apply firstn_all2. lia.
Qed.

(** ** The three queries on a text that passes validation *)

Lemma extract_text text :
  text <> [] ->
  extract_valid_words_from_text_and_convert_to_lower_case (VStr text)
  = Ok (map lower (findall text)).
Proof. destruct text; [congruence | reflexivity]. Qed.

Lemma highest_frequency_text text :
  text <> [] ->
  calculate_highest_frequency (VStr text)
  = Ok (match sorted_reverse Z.ltb itemgetter_1 (FrequencyMap text) with
        | [] => 0%Z
        | first :: _ => snd first
        end).
Proof.
  intros H. unfold calculate_highest_frequency.
  rewrite (extract_text text H). simpl. unfold FrequencyMap.
  now destruct (sorted_reverse _ _ _).
Qed.

Lemma frequency_for_word_text text w :
  text <> [] ->
  calculate_frequency_for_word (VStr text) (VStr w)
  = Ok (Counter_getitem (FrequencyMap text) w).
Proof.
  intros H. unfold calculate_frequency_for_word. simpl.
  now rewrite (extract_text text H).
Qed.

Lemma most_frequent_text text n :
  text <> [] ->
  calculate_most_frequent_n_words (VStr text) (VInt n)
  = Ok (slice_to (sorted tuple_ltb rank_key (FrequencyMap text)) n).
Proof.
  intros H. unfold calculate_most_frequent_n_words. simpl.
  now rewrite (extract_text text H).
Qed.

(** ** The highest count *)

Lemma StronglySorted_last {A} (R : A -> A -> Prop) l x :
  StronglySorted R (l ++ [x]) -> Forall (fun y => R y x) l.
Proof.
  induction l as [|y l IH]; simpl; intros S; [constructor |].
  inversion S as [|? ? S' F]; subst. constructor; [| auto].
  rewrite Forall_forall in F. apply F, in_or_app. right. now left.
Qed.

(** The head of the list sorted in reverse carries a largest count. *)
Lemma sorted_reverse_head (d : dict) :
  match sorted_reverse Z.ltb itemgetter_1 d with
  | [] => d = []
  | first :: _ => In first d /\ forall e, In e d -> (snd e <= snd first)%Z
  end.
Proof.
  unfold sorted_reverse.
  pose proof (sorted_perm Z.ltb itemgetter_1 (rev d)) as P.
  assert (S : StronglySorted (key_le Z.ltb itemgetter_1)
                (sorted Z.ltb itemgetter_1 (rev d))).
  { apply sorted_sorted; intros; lia. }
  revert P S. generalize (sorted Z.ltb itemgetter_1 (rev d)). intros s P S.
  assert (P' : Permutation (rev s) d).
  { rewrite <- (Permutation_rev s), P. apply Permutation_sym, Permutation_rev. }
  destruct (rev s) as [|first rest] eqn:E.
  - apply Permutation_nil in P'. exact P'.
  - assert (Es : s = rev rest ++ [first]).
    { rewrite <- (rev_involutive s), E. reflexivity. }
    subst s. apply StronglySorted_last in S. rewrite Forall_forall in S.
    split.
    + apply (Permutation_in first P'). now left.
    + intros e He. apply (Permutation_in e (Permutation_sym P')) in He.
      destruct He as [<- | He]; [lia |].
      apply in_rev in He. specialize (S e He).
      unfold key_le, itemgetter_1 in S. lia.
Qed.

(** A text without letters has no words, and conversely. *)
Lemma findall_no_letters text : findall text = [] <-> Forall separator text.
Proof.
  induction text as [|c text IH].
  - simp findall. split; constructor.
  - destruct (is_alpha c) eqn:Hc.
    + simp findall. rewrite Hc. split; [discriminate |].
      inversion 1; subst. unfold separator in *. congruence.
    + rewrite findall_separator by exact Hc. rewrite IH. split.
      * now constructor.
      * now inversion 1.
Qed.

Lemma FrequencyMap_empty text : FrequencyMap text = [] <-> Forall separator text.
Proof.
  unfold FrequencyMap. rewrite Counter_empty, <- findall_no_letters.
  destruct (findall text); simpl; split; congruence.
Qed.

Lemma lower_char_lowercase_of c : letter c -> lowercase_of c (lower_char c).
Proof.
  intros H. split; [now apply lower_char_letter |].
  unfold lower_char. destruct (is_upper c); auto.
Qed.

Lemma lower_lowercased w : Forall letter w -> lowercased w (lower w).
Proof.
  induction 1; simpl; constructor; auto using lower_char_lowercase_of.
Qed.

(** ** Errors *)

(** A query that computes a value from the extracted words raises
    [EmptyInput] for the empty string and for no other text. *)
Lemma EmptyInput_of_extract {B} (k : list str -> result B) (text : value) :
  (forall words, exists b, k words = Ok b) ->
  (EmptyInput
     (bind (extract_valid_words_from_text_and_convert_to_lower_case text) k)
   <-> text = VStr []).
Proof.
  intros Hk. unfold EmptyInput.
  destruct text as [[|c s]| | | |]; simpl;
    try (split; [intros [msg E]; discriminate | discriminate]).
  - split; [reflexivity | intros _; eexists; reflexivity].
  - destruct (Hk (map lower (findall (c :: s)))) as [b ->].
    split; [intros [msg E]; discriminate | discriminate].
Qed.

Lemma firstn_empty {A} k (l : list A) : firstn k l = [] <-> k = 0 \/ l = [].
Proof.
  destruct k, l; simpl; split; auto; try discriminate.
  intros [H | H]; discriminate.
Qed.

(** ** The claims of the specification *)

(** C2.  For a non-empty text, the tokenizer returns exactly the maximal
    runs of ASCII letters of the text, from left to right, each in
    lowercase.  [letter_runs] cuts the text at its separators, and the
    cut is unique; every returned word is the lowercase form of its run
    and consists of lowercase letters only, so that no separator (digit,
    punctuation, blank, non-ASCII character) joins two runs or reaches a
    word. *)
Theorem extractWords_maximal_letter_runs (text : str) :
  text <> [] ->
  exists runs words,
    letter_runs text runs /\
    (forall runs', letter_runs text runs' -> runs' = runs) /\
    extract_valid_words_from_text_and_convert_to_lower_case (VStr text)
    = Ok words /\
    Forall2 lowercased runs words /\
    Forall Word words.
Proof.
  intros Hne. exists (findall text), (map lower (findall text)).
  split; [apply findall_letter_runs |].
  split; [intros runs' H; now apply letter_runs_unique |].
  split; [now apply extract_text |].
  split; [| apply extracted_words].
  induction (findall_alpha text) as [|w l [_ Hw] _ IH]; simpl;
    constructor; auto using lower_lowercased.
Qed.

Lemma extractWords_maximal_letter_runs_witness :
  text_of "Ab1c d" <> [] /\
  exists runs words,
    letter_runs (text_of "Ab1c d") runs /\
    (forall runs', letter_runs (text_of "Ab1c d") runs' -> runs' = runs) /\
    extract_valid_words_from_text_and_convert_to_lower_case
      (VStr (text_of "Ab1c d")) = Ok words /\
    Forall2 lowercased runs words /\
    Forall Word words.
Proof.
  split; [discriminate |].
  apply (extractWords_maximal_letter_runs (text_of "Ab1c d")). discriminate.
Defined.

(** C3.  For a non-empty text, the highest frequency is the largest count
    stored in the FrequencyMap of the text: it is the count of some word
    and no count exceeds it.  When the map is empty, which is the case
    exactly when the text has no letter, the result is 0 and no error is
    raised. *)
Theorem highestFrequency_is_max_count (text : str) :
  text <> [] ->
  exists m,
    calculate_highest_frequency (VStr text) = Ok m /\
    (FrequencyMap text = [] -> m = 0%Z) /\
    (Forall separator text -> m = 0%Z) /\
    (FrequencyMap text <> [] ->
     (exists w, In (w, m) (FrequencyMap text)) /\
     (forall w c, In (w, c) (FrequencyMap text) -> (c <= m)%Z)).
Proof.
  intros Hne. rewrite (highest_frequency_text text Hne).
  pose proof (sorted_reverse_head (FrequencyMap text)) as H.
  destruct (sorted_reverse Z.ltb itemgetter_1 (FrequencyMap text))
    as [|[w m] rest].
  - exists 0%Z. repeat split; auto; congruence.
  - destruct H as [Hin Hmax]. exists m. simpl.
    assert (NE : FrequencyMap text <> [])
      by (intros E; rewrite E in Hin; destruct Hin).
    split; [reflexivity |]. split; [congruence |].
    split; [intros F; apply FrequencyMap_empty in F; congruence |].
    intros _. split; [now exists w |].
    intros w' c Hc. exact (Hmax _ Hc).
Qed.

Lemma highestFrequency_is_max_count_witness :
  text_of "abc def ghi ABC DEF" <> [] /\
  exists m,
    calculate_highest_frequency (VStr (text_of "abc def ghi ABC DEF")) = Ok m /\
    (FrequencyMap (text_of "abc def ghi ABC DEF") = [] -> m = 0%Z) /\
    (Forall separator (text_of "abc def ghi ABC DEF") -> m = 0%Z) /\
    (FrequencyMap (text_of "abc def ghi ABC DEF") <> [] ->
     (exists w, In (w, m) (FrequencyMap (text_of "abc def ghi ABC DEF"))) /\
     (forall w c,
         In (w, c) (FrequencyMap (text_of "abc def ghi ABC DEF")) -> (c <= m)%Z)).
Proof.
  split; [discriminate |].
  apply (highestFrequency_is_max_count (text_of "abc def ghi ABC DEF")).
  discriminate.
Defined.

(** C8.  For a non-empty text, the FrequencyMap that each of the three
    queries builds from the extracted words satisfies the invariants of
    the data model: every key is a non-empty word of lowercase ASCII
    letters, the counts add up to the number of extracted words, and
    every stored count is at least 1. *)
Theorem FrequencyMap_invariants (text : str) :
  text <> [] ->
  exists words,
    extract_valid_words_from_text_and_convert_to_lower_case (VStr text)
    = Ok words /\
    FrequencyMap text = Counter words /\
    calculate_highest_frequency (VStr text)
    = Ok (match sorted_reverse Z.ltb itemgetter_1 (Counter words) with
          | [] => 0%Z
          | first :: _ => snd first
          end) /\
    (forall w, calculate_frequency_for_word (VStr text) (VStr w)
               = Ok (Counter_getitem (Counter words) w)) /\
    (forall n, calculate_most_frequent_n_words (VStr text) (VInt n)
               = Ok (slice_to (sorted tuple_ltb rank_key (Counter words)) n)) /\
    (forall w c, In (w, c) (Counter words) -> Word w) /\
    total_count (Counter words) = Z.of_nat (length words) /\
    (forall w c, In (w, c) (Counter words) -> (1 <= c)%Z).
Proof.
  intros Hne. exists (map lower (findall text)).
  split; [now apply extract_text |]. split; [reflexivity |].
  split; [now apply highest_frequency_text |].
  split; [intros w; now apply frequency_for_word_text |].
  split; [intros n; now apply most_frequent_text |].
  split; [| split; [apply Counter_total |]].
  - intros w c H. apply Counter_items in H. destruct H as [H _].
    pose proof (extracted_words text) as F. rewrite Forall_forall in F. auto.
  - intros w c H. apply Counter_items in H. destruct H as [H ->].
    now apply occurrences_positive.
Qed.

Lemma FrequencyMap_invariants_witness :
  text_of "The sun shines over the lake" <> [] /\
  exists words,
    extract_valid_words_from_text_and_convert_to_lower_case
      (VStr (text_of "The sun shines over the lake")) = Ok words /\
    FrequencyMap (text_of "The sun shines over the lake") = Counter words /\
    calculate_highest_frequency (VStr (text_of "The sun shines over the lake"))
    = Ok (match sorted_reverse Z.ltb itemgetter_1 (Counter words) with
          | [] => 0%Z
          | first :: _ => snd first
          end) /\
    (forall w, calculate_frequency_for_word
                 (VStr (text_of "The sun shines over the lake")) (VStr w)
               = Ok (Counter_getitem (Counter words) w)) /\
    (forall n, calculate_most_frequent_n_words
                 (VStr (text_of "The sun shines over the lake")) (VInt n)
               = Ok (slice_to (sorted tuple_ltb rank_key (Counter words)) n)) /\
    (forall w c, In (w, c) (Counter words) -> Word w) /\
    total_count (Counter words) = Z.of_nat (length words) /\
    (forall w c, In (w, c) (Counter words) -> (1 <= c)%Z).
Proof.
  split; [discriminate |].
  apply (FrequencyMap_invariants (text_of "The sun shines over the lake")).
  discriminate.
Defined.

(** C4.  For a non-empty text and a string [w], the frequency query looks
    [w] up as it is given, without changing its case: the result is the
    count stored for [w] in the FrequencyMap, which is the number of
    extracted (lowercase) words equal to [w], and 0 when [w] is not a
    key.  As every key is lowercase, a query that contains an uppercase
    letter yields 0. *)
Theorem frequencyOf_exact_lookup (text w : str) :
  text <> [] ->
  exists words r,
    extract_valid_words_from_text_and_convert_to_lower_case (VStr text)
    = Ok words /\
    calculate_frequency_for_word (VStr text) (VStr w) = Ok r /\
    r = occurrences words w /\
    (forall c, In (w, c) (FrequencyMap text) -> r = c) /\
    (~ In w (map fst (FrequencyMap text)) -> r = 0%Z) /\
    ((exists c, In c w /\ is_upper c = true) -> r = 0%Z).
Proof.
  intros Hne.
  exists (map lower (findall text)), (Counter_getitem (FrequencyMap text) w).
  split; [now apply extract_text |].
  split; [now apply frequency_for_word_text |].
  unfold Counter_getitem, FrequencyMap. rewrite Counter_get.
  split; [reflexivity |].
  split; [intros c H; apply Counter_items in H; now destruct H |].
  split.
  - rewrite Counter_keys. apply occurrences_absent.
  - intros (c & Hc & Hup). apply occurrences_absent. intros Hin.
    pose proof (extracted_words text) as F. rewrite Forall_forall in F.
    destruct (F w Hin) as [_ Hlow]. rewrite Forall_forall in Hlow.
    apply upper_not_lower in Hup. rewrite (Hlow c Hc) in Hup. discriminate.
Qed.

Lemma frequencyOf_exact_lookup_witness :
  text_of "The sun shines over the lake" <> [] /\
  exists words r,
    extract_valid_words_from_text_and_convert_to_lower_case
      (VStr (text_of "The sun shines over the lake")) = Ok words /\
    calculate_frequency_for_word
      (VStr (text_of "The sun shines over the lake")) (VStr (text_of "The"))
    = Ok r /\
    r = occurrences words (text_of "The") /\
    (forall c,
        In (text_of "The", c) (FrequencyMap (text_of "The sun shines over the lake"))
        -> r = c) /\
    (~ In (text_of "The")
         (map fst (FrequencyMap (text_of "The sun shines over the lake")))
     -> r = 0%Z) /\
    ((exists c, In c (text_of "The") /\ is_upper c = true) -> r = 0%Z).
Proof.
  split; [discriminate |].
  apply (frequencyOf_exact_lookup
           (text_of "The sun shines over the lake") (text_of "The")).
  discriminate.
Defined.

(** C9.  For a non-empty text and a word [w] of lowercase letters, the
    frequency query agrees with the full ranked output, obtained with an
    [n] that is at least the number of distinct words: the result is the
    count paired with [w] there, and 0 when [w] does not occur there.
    The words of the ranked output are distinct, so the pairing is
    unambiguous. *)
Theorem frequencyOf_agrees_with_ranking (text w : str) (n : Z) :
  text <> [] ->
  Forall (fun c => is_lower c = true) w ->
  (Z.of_nat (length (FrequencyMap text)) <= n)%Z ->
  exists ranked r,
    calculate_most_frequent_n_words (VStr text) (VInt n) = Ok ranked /\
    calculate_frequency_for_word (VStr text) (VStr w) = Ok r /\
    NoDup (map fst ranked) /\
    (forall c, In (w, c) ranked -> r = c) /\
    (~ In w (map fst ranked) -> r = 0%Z).
Proof.
  intros Hne _ Hn.
  exists (sorted tuple_ltb rank_key (FrequencyMap text)),
         (Counter_getitem (FrequencyMap text) w).
  assert (P : Permutation (sorted tuple_ltb rank_key (FrequencyMap text))
                (FrequencyMap text)) by apply sorted_perm.
  split.
  { rewrite (most_frequent_text text n Hne). f_equal. apply slice_to_all.
    now rewrite (Permutation_length P). }
  split; [now apply frequency_for_word_text |].
  unfold Counter_getitem, FrequencyMap in *. rewrite Counter_get.
  split; [| split].
  - eapply Permutation_NoDup; [| apply Counter_NoDup].
    apply Permutation_map, Permutation_sym, P.
  - intros c H. apply (Permutation_in _ P) in H.
    apply Counter_items in H. now destruct H.
  - intros H. apply occurrences_absent. intros Hin. apply H.
    apply Counter_keys in Hin.
    eapply Permutation_in; [| exact Hin].
    apply Permutation_map, Permutation_sym, P.
Qed.

Lemma frequencyOf_agrees_with_ranking_witness :
  text_of "Ben! Ben!2 Eze?; Eze km kl0 kl jk nm" <> [] /\
  Forall (fun c => is_lower c = true) (text_of "kl") /\
  (Z.of_nat (length (FrequencyMap (text_of "Ben! Ben!2 Eze?; Eze km kl0 kl jk nm")))
   <= 6)%Z /\
  exists ranked r,
    calculate_most_frequent_n_words
      (VStr (text_of "Ben! Ben!2 Eze?; Eze km kl0 kl jk nm")) (VInt 6)
    = Ok ranked /\
    calculate_frequency_for_word
      (VStr (text_of "Ben! Ben!2 Eze?; Eze km kl0 kl jk nm")) (VStr (text_of "kl"))
    = Ok r /\
    NoDup (map fst ranked) /\
    (forall c, In (text_of "kl", c) ranked -> r = c) /\
    (~ In (text_of "kl") (map fst ranked) -> r = 0%Z).
Proof.
  split; [discriminate |].
  split; [repeat constructor |].
  split; [vm_compute; discriminate |].
  apply (frequencyOf_agrees_with_ranking
           (text_of "Ben! Ben!2 Eze?; Eze km kl0 kl jk nm") (text_of "kl") 6).
  - discriminate.
  - repeat constructor.
  - vm_compute. discriminate.
Defined.

(** C6.  An argument of the wrong type makes the query raise a
    [TypeError], whatever the other argument is, and nothing is computed
    from the text.  The message names the argument at fault and the type
    expected of it: a text that is not a string in any of the three
    queries, a word that is not a string in the frequency query, an [n]
    that is not an integer in the ranking query.  Where both arguments of
    a query are at fault, the error raised is that of the second
    argument. *)
Theorem InvalidType_on_wrong_argument_type :
  (forall text,
      isinstance_str text = false ->
      calculate_highest_frequency text
      = Raise (TypeError "Invalid input text: Input text should be a string")) /\
  (forall text word,
      isinstance_str word = false ->
      calculate_frequency_for_word text word
      = Raise (TypeError "Invalid input: word should be a string")) /\
  (forall text word,
      isinstance_str text = false -> isinstance_str word = true ->
      calculate_frequency_for_word text word
      = Raise (TypeError "Invalid input text: Input text should be a string")) /\
  (forall text n,
      isinstance_int n = false ->
      calculate_most_frequent_n_words text n
      = Raise (TypeError "Invalid input: n should be an integer")) /\
  (forall text n,
      isinstance_str text = false -> isinstance_int n = true ->
      calculate_most_frequent_n_words text n
      = Raise (TypeError "Invalid input text: Input text should be a string")) /\
  (forall text word,
      isinstance_str text = false \/ isinstance_str word = false ->
      InvalidType (calculate_frequency_for_word text word)) /\
  (forall text n,
      isinstance_str text = false \/ isinstance_int n = false ->
      InvalidType (calculate_most_frequent_n_words text n)).
Proof.
  unfold InvalidType, isinstance_str, isinstance_int,
    calculate_highest_frequency, calculate_frequency_for_word,
    calculate_most_frequent_n_words,
    extract_valid_words_from_text_and_convert_to_lower_case.
  repeat split.
  - intros text H. destruct (as_str text); [discriminate | reflexivity].
  - intros text word H. destruct (as_str word); [discriminate | reflexivity].
  - intros text word Ht Hw.
    destruct (as_str word); [| discriminate].
    destruct (as_str text); [discriminate | reflexivity].
  - intros text n H. destruct (as_int n); [discriminate | reflexivity].
  - intros text n Ht Hn.
    destruct (as_int n); [| discriminate].
    destruct (as_str text); [discriminate | reflexivity].
  - intros text word H.
    destruct (as_str word); [| eexists; reflexivity].
    destruct (as_str text); [| eexists; reflexivity].
    destruct H; discriminate.
  - intros text n H.
    destruct (as_int n); [| eexists; reflexivity].
    destruct (as_str text); [| eexists; reflexivity].
    destruct H; discriminate.
Qed.

(** C10.  The type of the second argument is checked before the text is
    looked at: whatever the text is (a string, the empty string, an
    object of another type), a word that is not a string makes the
    frequency query raise the [TypeError] of the word, and an [n] that is
    not an integer makes the ranking query raise the [TypeError] of
    [n]. *)
Theorem second_argument_checked_first (text : value) :
  (forall word,
      isinstance_str word = false ->
      calculate_frequency_for_word text word
      = Raise (TypeError "Invalid input: word should be a string")) /\
  (forall n,
      isinstance_int n = false ->
      calculate_most_frequent_n_words text n
      = Raise (TypeError "Invalid input: n should be an integer")).
Proof.
  unfold isinstance_str, isinstance_int,
    calculate_frequency_for_word, calculate_most_frequent_n_words.
  split.
  - intros word H. destruct (as_str word); [discriminate | reflexivity].
  - intros n H. destruct (as_int n); [discriminate | reflexivity].
Qed.

Lemma second_argument_checked_first_witness :
  (isinstance_str (VInt 6) = false /\
   calculate_frequency_for_word (VStr []) (VInt 6)
   = Raise (TypeError "Invalid input: word should be a string")) /\
  (isinstance_int (VStr (text_of "test")) = false /\
   calculate_most_frequent_n_words VNone (VStr (text_of "test"))
   = Raise (TypeError "Invalid input: n should be an integer")).
Proof.
  split; (split; [reflexivity |]).
  - apply (proj1 (second_argument_checked_first (VStr [])) (VInt 6)).
    reflexivity.
  - apply (proj2 (second_argument_checked_first VNone) (VStr (text_of "test"))).
    reflexivity.
Defined.

Lemma InvalidType_on_wrong_argument_type_witness :
  isinstance_str (VInt 6) = false /\
  calculate_highest_frequency (VInt 6)
  = Raise (TypeError "Invalid input text: Input text should be a string").
Proof.
  split; [reflexivity |].
  apply (proj1 InvalidType_on_wrong_argument_type (VInt 6)). reflexivity.
Defined.

(** C5, as stated, fails where the second argument has the wrong type:
    the text is the empty string, and yet the error raised is the
    [TypeError] of the word, not [EmptyInput]. *)
Lemma EmptyInput_not_raised_for_ill_typed_word :
  calculate_frequency_for_word (VStr []) (VInt 6)
  = Raise (TypeError "Invalid input: word should be a string") /\
  ~ (EmptyInput (calculate_frequency_for_word (VStr []) (VInt 6))
     <-> VStr [] = VStr []).
Proof.
  split; [reflexivity |].
  intros [_ H]. destruct (H eq_refl) as [msg E]. discriminate.
Qed.

(** C5, amended.  The highest-frequency query raises [EmptyInput]
    exactly when the text is the empty string; the frequency query and
    the ranking query do so exactly when the text is the empty string,
    provided their second argument has the required type.  A non-empty
    text without letters is no error: the three results are 0, 0 and the
    empty list. *)
Theorem EmptyInput_iff_empty_text :
  (forall text,
      EmptyInput (calculate_highest_frequency text) <-> text = VStr []) /\
  (forall text word,
      isinstance_str word = true ->
      (EmptyInput (calculate_frequency_for_word text word) <-> text = VStr [])) /\
  (forall text n,
      isinstance_int n = true ->
      (EmptyInput (calculate_most_frequent_n_words text n) <-> text = VStr [])) /\
  (forall text w n,
      text <> [] -> Forall separator text ->
      calculate_highest_frequency (VStr text) = Ok 0%Z /\
      calculate_frequency_for_word (VStr text) (VStr w) = Ok 0%Z /\
      calculate_most_frequent_n_words (VStr text) (VInt n) = Ok []).
Proof.
  split; [| split; [| split]].
  - intros text. apply EmptyInput_of_extract. intros words. cbv beta zeta.
    destruct (sorted_reverse Z.ltb itemgetter_1 (Counter words));
      eexists; reflexivity.
  - intros text word H. unfold isinstance_str, calculate_frequency_for_word in *.
    destruct (as_str word); [| discriminate].
    apply EmptyInput_of_extract. intros words. eexists; reflexivity.
  - intros text n H. unfold isinstance_int, calculate_most_frequent_n_words in *.
    destruct (as_int n); [| discriminate].
    apply EmptyInput_of_extract. intros words. eexists; reflexivity.
  - intros text w n Hne Hsep. apply FrequencyMap_empty in Hsep.
    rewrite (highest_frequency_text text Hne),
      (frequency_for_word_text text w Hne), (most_frequent_text text n Hne).
    rewrite Hsep. repeat split.
    unfold slice_to. now rewrite firstn_nil.
Qed.

Lemma EmptyInput_iff_empty_text_witness :
  (isinstance_str (VStr (text_of "test")) = true /\
   (EmptyInput (calculate_frequency_for_word (VStr []) (VStr (text_of "test")))
    <-> VStr [] = VStr [])) /\
  (text_of "789 :.,/ 099*** %$# @56" <> [] /\
   Forall separator (text_of "789 :.,/ 099*** %$# @56") /\
   calculate_highest_frequency (VStr (text_of "789 :.,/ 099*** %$# @56"))
   = Ok 0%Z /\
   calculate_frequency_for_word
     (VStr (text_of "789 :.,/ 099*** %$# @56")) (VStr (text_of "testWord"))
   = Ok 0%Z /\
   calculate_most_frequent_n_words
     (VStr (text_of "789 :.,/ 099*** %$# @56")) (VInt 4) = Ok []).
Proof.
  split.
  - split; [reflexivity |].
    apply (proj1 (proj2 EmptyInput_iff_empty_text)
             (VStr []) (VStr (text_of "test"))).
    reflexivity.
  - split; [discriminate |]. split; [repeat constructor |].
    apply (proj2 (proj2 (proj2 EmptyInput_iff_empty_text))
             (text_of "789 :.,/ 099*** %$# @56") (text_of "testWord") 4%Z).
    + discriminate.
    + repeat constructor.
Defined.

(** C7, as stated, fails for a negative [n]: the slice [[:n]] counts a
    negative stop from the end of the list, so [n = -1] drops the last
    entry of the ranking and keeps the others. *)
Lemma mostFrequentN_negative_n_not_empty :
  calculate_most_frequent_n_words (VStr (text_of "a b")) (VInt (-1))
  = Ok [(text_of "a", 1%Z)] /\
  calculate_most_frequent_n_words (VStr (text_of "a b")) (VInt (-1))
  <> Ok [].
Proof. split; [reflexivity | discriminate]. Qed.

(** C7, amended.  For a non-empty text, [n = 0] yields the empty list; a
    negative [n] yields the full ranking without its last [-n] entries,
    which is the empty list exactly when [-n] is at least the number of
    distinct words. *)
Theorem mostFrequentN_nonpositive_n (text : str) (n : Z) :
  text <> [] -> (n <= 0)%Z ->
  exists ranking out,
    calculate_most_frequent_n_words
      (VStr text) (VInt (Z.of_nat (length (FrequencyMap text)))) = Ok ranking /\
    calculate_most_frequent_n_words (VStr text) (VInt n) = Ok out /\
    (n = 0%Z -> out = []) /\
    ((n < 0)%Z -> out = firstn (length ranking - Z.to_nat (- n)) ranking) /\
    ((n < 0)%Z -> (out = [] <-> (Z.of_nat (length ranking) <= - n)%Z)).
Proof.
  intros Hne Hn.
  set (ranking := sorted tuple_ltb rank_key (FrequencyMap text)).
  assert (L : length ranking = length (FrequencyMap text))
    by apply Permutation_length, sorted_perm.
  exists ranking, (slice_to ranking n).
  split.
  { rewrite (most_frequent_text _ _ Hne). f_equal. apply slice_to_all.
    fold ranking. lia. }
  split; [now apply most_frequent_text |].
  split; [intros ->; reflexivity |].
  split; [intros H; now apply slice_to_negative |].
  intros H. rewrite (slice_to_negative ranking n H). split.
  - intros E. apply firstn_empty in E.
    destruct E as [E | E]; [lia | rewrite E; simpl; lia].
  - intros E. apply firstn_empty. left. lia.
Qed.

Lemma mostFrequentN_nonpositive_n_witness :
  text_of "a b c" <> [] /\ (-1 <= 0)%Z /\
  exists ranking out,
    calculate_most_frequent_n_words
      (VStr (text_of "a b c"))
      (VInt (Z.of_nat (length (FrequencyMap (text_of "a b c"))))) = Ok ranking /\
    calculate_most_frequent_n_words (VStr (text_of "a b c")) (VInt (-1))
    = Ok out /\
    ((-1)%Z = 0%Z -> out = []) /\
    ((-1 < 0)%Z -> out = firstn (length ranking - Z.to_nat (- (-1))) ranking) /\
    ((-1 < 0)%Z -> (out = [] <-> (Z.of_nat (length ranking) <= - (-1))%Z)).
Proof.
  split; [discriminate |]. split; [lia |].
  apply (mostFrequentN_nonpositive_n (text_of "a b c") (-1));
    [discriminate | lia].
Defined.

(** C1, as stated, fails for a negative [n]: the output is not the
    ranking cut down to its first [n] entries, which would be none, but
    the ranking without its last entry. *)
Lemma mostFrequentN_negative_n_not_first_n :
  calculate_most_frequent_n_words (VStr (text_of "b a a")) (VInt 2)
  = Ok [(text_of "a", 2%Z); (text_of "b", 1%Z)] /\
  calculate_most_frequent_n_words (VStr (text_of "b a a")) (VInt (-1))
  = Ok [(text_of "a", 2%Z)] /\
  calculate_most_frequent_n_words (VStr (text_of "b a a")) (VInt (-1))
  <> Ok (take (-1) [(text_of "a", 2%Z); (text_of "b", 1%Z)]).
Proof. split; [reflexivity | split; [reflexivity | discriminate]]. Qed.

(** C1, amended.  For a non-empty text, the entries of the FrequencyMap
    have exactly one arrangement ranked by count descending and, for
    equal counts, by word ascending; the output is a prefix of it: its
    first [n] entries when [n] is not negative, all of it when [n] is at
    least the number of distinct words, and all but its last [-n] entries
    when [n] is negative.  For every [n], each entry of the output ranks
    strictly before the next one: its count is greater, or the counts are
    equal and its word is lexicographically smaller. *)
Theorem mostFrequentN_ranked (text : str) (n : Z) :
  text <> [] ->
  exists ranking out,
    Permutation ranking (FrequencyMap text) /\
    StronglySorted ranks_before ranking /\
    (forall r, Permutation r (FrequencyMap text) ->
               StronglySorted ranks_before r -> r = ranking) /\
    calculate_most_frequent_n_words (VStr text) (VInt n) = Ok out /\
    ((0 <= n)%Z -> out = take n ranking) /\
    ((n < 0)%Z -> out = firstn (length ranking - Z.to_nat (- n)) ranking) /\
    adjacent_pairs ranks_before out /\
    ((Z.of_nat (length ranking) <= n)%Z -> out = ranking).
Proof.
  intros Hne.
  set (ranking := sorted tuple_ltb rank_key (FrequencyMap text)).
  assert (ND : NoDup (map fst (FrequencyMap text))) by apply Counter_NoDup.
  assert (S : StronglySorted ranks_before ranking)
    by now apply rank_sort_ranked.
  exists ranking, (slice_to ranking n).
  split; [apply sorted_perm |]. split; [exact S |].
  split; [intros r P Sr; now apply ranking_unique |].
  split; [now apply most_frequent_text |].
  split; [apply slice_to_nonneg |].
  split; [apply slice_to_negative |].
  split; [| apply slice_to_all].
  apply StronglySorted_adjacent. unfold slice_to.
  now apply StronglySorted_firstn.
Qed.

Lemma mostFrequentN_ranked_witness :
  text_of "Ben! Ben!2 Eze?; Eze km kl0 kl jk nm" <> [] /\
  exists ranking out,
    Permutation ranking (FrequencyMap (text_of "Ben! Ben!2 Eze?; Eze km kl0 kl jk nm")) /\
    StronglySorted ranks_before ranking /\
    (forall r,
        Permutation r (FrequencyMap (text_of "Ben! Ben!2 Eze?; Eze km kl0 kl jk nm")) ->
        StronglySorted ranks_before r -> r = ranking) /\
    calculate_most_frequent_n_words
      (VStr (text_of "Ben! Ben!2 Eze?; Eze km kl0 kl jk nm")) (VInt 4) = Ok out /\
    ((0 <= 4)%Z -> out = take 4 ranking) /\
    ((4 < 0)%Z -> out = firstn (length ranking - Z.to_nat (- 4)) ranking) /\
    adjacent_pairs ranks_before out /\
    ((Z.of_nat (length ranking) <= 4)%Z -> out = ranking).
Proof.
  split; [discriminate |].
  apply (mostFrequentN_ranked (text_of "Ben! Ben!2 Eze?; Eze km kl0 kl jk nm") 4).
  discriminate.
Defined.

(** ** Further properties of the tokenizer *)

Lemma same_case_alpha c d : same_case c d -> is_alpha c = is_alpha d.
Proof.
  unfold same_case, lower_char, is_alpha, is_upper, is_lower.
  destruct (N.leb_spec 65 c), (N.leb_spec c 90), (N.leb_spec 97 c),
    (N.leb_spec c 122), (N.leb_spec 65 d), (N.leb_spec d 90),
    (N.leb_spec 97 d), (N.leb_spec d 122); simpl; intros; try reflexivity; lia.
Qed.

Lemma same_case_lower w v : same_case_text w v -> lower w = lower v.
Proof. induction 1; simpl; congruence. Qed.

Lemma same_case_run_stops s t :
  same_case_text s t -> run_stops s -> run_stops t.
Proof.
  destruct 1 as [|c d s t H _]; simpl; auto.
  unfold separator. now rewrite (same_case_alpha c d H).
Qed.

Lemma same_case_letters w v :
  same_case_text w v -> Forall letter w -> Forall letter v.
Proof.
  induction 1 as [|c d w v H _ IH]; intros F; constructor;
    inversion F; subst; auto.
  unfold letter in *. now rewrite <- (same_case_alpha c d H).
Qed.

(** Changing the case of letters changes the runs in case only. *)
Lemma letter_runs_same_case s runs :
  letter_runs s runs ->
  forall t, same_case_text s t ->
  exists runs', letter_runs t runs' /\ map lower runs' = map lower runs.
Proof.
  induction 1 as [|c s runs Hc _ IH|w s runs Hne Hw Hs _ IH]; intros t Ht.
  - inversion Ht; subst. exists []. split; constructor.
  - inversion Ht as [|? d ? t' Hcd Ht']; subst.
    destruct (IH t' Ht') as (runs' & R & E). exists runs'. split; [| exact E].
    apply runs_separator; [| exact R].
    unfold separator in *. now rewrite <- (same_case_alpha c d Hcd).
  - apply Forall2_app_inv_l in Ht. destruct Ht as (v & t' & Hv & Ht' & ->).
    destruct (IH t' Ht') as (runs' & R & E). exists (v :: runs'). split.
    + apply runs_run; auto.
      * intros ->. inversion Hv; subst. congruence.
      * eapply same_case_letters; eauto.
      * eapply same_case_run_stops; eauto.
    + simpl. rewrite E. f_equal. symmetry. now apply same_case_lower.
Qed.

Lemma letter_runs_app s1 r1 s2 r2 :
  letter_runs s1 r1 -> letter_runs s2 r2 -> run_stops s2 ->
  letter_runs (s1 ++ s2) (r1 ++ r2).
Proof.
  intros H1 H2 Hs2.
  induction H1 as [|c s runs Hc _ IH|w s runs Hne Hw Hs _ IH]; simpl.
  - exact H2.
  - now apply runs_separator.
  - rewrite <- app_assoc. apply runs_run; auto.
    destruct s; simpl; auto.
Qed.

Lemma letter_runs_separators sep s runs :
  Forall separator sep -> letter_runs s runs -> letter_runs (sep ++ s) runs.
Proof.
  intros Hsep Hruns. induction Hsep as [|c sep Hc _ IH]; simpl;
    [exact Hruns | now apply runs_separator].
Qed.

Lemma Word_letters w : Word w -> Forall letter w.
Proof.
  intros [_ H]. eapply Forall_impl; [| exact H].
  intros c Hc. now apply lower_is_alpha.
Qed.

Lemma Word_lower w : Word w -> lower w = w.
Proof.
  intros [_ H]. unfold lower. induction H as [|c w Hc _ IH]; simpl;
    [reflexivity |].
  now rewrite IH, lower_char_fixes_lowercase.
Qed.

Lemma letter_runs_join sep words :
  sep <> [] -> Forall separator sep -> Forall Word words ->
  letter_runs (join sep words) words.
Proof.
  intros Hne Hsep. induction 1 as [|w words Hw Hws IH]; simpl.
  - constructor.
  - destruct words as [|w' words].
    + rewrite <- (app_nil_r w) at 1.
      apply runs_run; [apply Hw | now apply Word_letters | exact I | constructor].
    + apply runs_run; [apply Hw | now apply Word_letters | |].
      * destruct sep as [|c sep]; [congruence |].
        simpl. now inversion Hsep.
      * now apply letter_runs_separators.
Qed.

(** A run takes at least one character and, unless it ends the text, a
    separator behind it. *)
Lemma letter_runs_count s runs :
  letter_runs s runs ->
  2 * length runs <= length s + 1 /\
  (run_stops s -> 2 * length runs <= length s).
Proof.
  induction 1 as [|c s runs Hc _ [IH1 IH2]|w s runs Hne Hw Hs _ [IH1 IH2]];
    simpl.
  - lia.
  - lia.
  - rewrite length_app. destruct w as [|c w]; [congruence |]. simpl. split.
    + specialize (IH2 Hs). lia.
    + intros Hsep. inversion Hw; subst. unfold letter, separator in *.
      congruence.
Qed.

Lemma findall_same_case s t :
  same_case_text s t -> map lower (findall s) = map lower (findall t).
Proof.
  intros H.
  destruct (letter_runs_same_case s _ (findall_letter_runs s) t H)
    as (runs' & R & E).
  apply letter_runs_unique in R. now subst runs'.
Qed.

Lemma extract_same_case s t :
  same_case_text s t ->
  extract_valid_words_from_text_and_convert_to_lower_case (VStr s)
  = extract_valid_words_from_text_and_convert_to_lower_case (VStr t).
Proof.
  intros H. pose proof (findall_same_case s t H) as E.
  destruct H; [reflexivity |].
  rewrite !extract_text by discriminate. now rewrite E.
Qed.

Lemma findall_app_separator s1 c s2 :
  separator c -> findall (s1 ++ c :: s2) = findall s1 ++ findall s2.
Proof.
  intros Hc. symmetry. apply letter_runs_unique.
  apply letter_runs_app; [apply findall_letter_runs | | exact Hc].
  apply runs_separator; [exact Hc | apply findall_letter_runs].
Qed.

Lemma extract_Ok text words :
  extract_valid_words_from_text_and_convert_to_lower_case text = Ok words ->
  exists s, text = VStr s /\ s <> [] /\ words = map lower (findall s).
Proof.
  destruct text as [[|c s]| | | |]; simpl; try discriminate.
  intros E. injection E as <-. exists (c :: s).
  repeat split. discriminate.
Qed.

Lemma occurrences_app l1 l2 w :
  occurrences (l1 ++ l2) w = (occurrences l1 w + occurrences l2 w)%Z.
Proof. unfold occurrences. rewrite count_occ_app. lia. Qed.

(** X1.  The letter case of the text does not matter: two texts that
    differ only in the case of ASCII letters give the same words, and
    each of the three queries gives the same answer (or raises the same
    error) on both, whatever the second argument is. *)
Theorem queries_ignore_letter_case (s t : str) (arg : value) :
  same_case_text s t ->
  extract_valid_words_from_text_and_convert_to_lower_case (VStr s)
  = extract_valid_words_from_text_and_convert_to_lower_case (VStr t) /\
  calculate_highest_frequency (VStr s) = calculate_highest_frequency (VStr t) /\
  calculate_frequency_for_word (VStr s) arg
  = calculate_frequency_for_word (VStr t) arg /\
  calculate_most_frequent_n_words (VStr s) arg
  = calculate_most_frequent_n_words (VStr t) arg.
Proof.
  intros H. pose proof (extract_same_case s t H) as E.
  unfold calculate_highest_frequency, calculate_frequency_for_word,
    calculate_most_frequent_n_words.
  rewrite E. repeat split.
Qed.

Lemma queries_ignore_letter_case_witness :
  same_case_text (text_of "The sun; tHE") (text_of "tHE SUN; the") /\
  calculate_most_frequent_n_words (VStr (text_of "The sun; tHE")) (VInt 2)
  = calculate_most_frequent_n_words (VStr (text_of "tHE SUN; the")) (VInt 2).
Proof.
  assert (H : same_case_text (text_of "The sun; tHE") (text_of "tHE SUN; the"))
    by (repeat constructor).
  split; [exact H |].
  apply (queries_ignore_letter_case
           (text_of "The sun; tHE") (text_of "tHE SUN; the") (VInt 2) H).
Defined.

(** X2.  Tokenizing distributes over a separator: if two texts yield the
    words [w1] and [w2], the two texts put together with a separator
    character between them yield [w1] followed by [w2], and the
    frequency of every word in the joined text is the sum of its
    frequencies in the parts. *)
Theorem frequency_adds_over_separator (t1 t2 w : str) (c : char) w1 w2 :
  separator c ->
  extract_valid_words_from_text_and_convert_to_lower_case (VStr t1) = Ok w1 ->
  extract_valid_words_from_text_and_convert_to_lower_case (VStr t2) = Ok w2 ->
  extract_valid_words_from_text_and_convert_to_lower_case
    (VStr (t1 ++ c :: t2)) = Ok (w1 ++ w2) /\
  exists a b,
    calculate_frequency_for_word (VStr t1) (VStr w) = Ok a /\
    calculate_frequency_for_word (VStr t2) (VStr w) = Ok b /\
    calculate_frequency_for_word (VStr (t1 ++ c :: t2)) (VStr w)
    = Ok (a + b)%Z.
Proof.
  intros Hc E1 E2.
  assert (E : extract_valid_words_from_text_and_convert_to_lower_case
                (VStr (t1 ++ c :: t2)) = Ok (w1 ++ w2)).
  { apply extract_Ok in E1, E2.
    destruct E1 as (s1 & Hs1 & _ & ->), E2 as (s2 & Hs2 & _ & ->).
    injection Hs1 as <-. injection Hs2 as <-.
    rewrite extract_text by (destruct t1; discriminate).
    now rewrite findall_app_separator, map_app. }
  split; [exact E |].
  exists (occurrences w1 w), (occurrences w2 w).
  unfold calculate_frequency_for_word, Counter_getitem. simpl.
  rewrite E1, E2, E. simpl. rewrite !Counter_get, occurrences_app.
  repeat split.
Qed.

Lemma frequency_adds_over_separator_witness :
  separator 32%N /\
  extract_valid_words_from_text_and_convert_to_lower_case
    (VStr (text_of "Ben! Ben")) = Ok [text_of "ben"; text_of "ben"] /\
  extract_valid_words_from_text_and_convert_to_lower_case
    (VStr (text_of "eze ben")) = Ok [text_of "eze"; text_of "ben"] /\
  calculate_frequency_for_word
    (VStr (text_of "Ben! Ben" ++ 32%N :: text_of "eze ben")) (VStr (text_of "ben"))
  = Ok 3%Z.
Proof.
  split; [reflexivity |]. split; [reflexivity |]. split; [reflexivity |].
  destruct (frequency_adds_over_separator
              (text_of "Ben! Ben") (text_of "eze ben") (text_of "ben") 32%N
              [text_of "ben"; text_of "ben"] [text_of "eze"; text_of "ben"]
              eq_refl eq_refl eq_refl) as (_ & a & b & Ha & Hb & Hab).
  injection Ha as <-. injection Hb as <-. exact Hab.
Defined.

(** X3.  The tokenizer undoes a join: a non-empty list of words (each one
    or more lowercase letters), joined with a non-empty string of
    separator characters, is tokenized back into the same list. *)
Theorem extract_of_join (sep : str) (words : list str) :
  sep <> [] -> Forall separator sep ->
  words <> [] -> Forall Word words ->
  extract_valid_words_from_text_and_convert_to_lower_case
    (VStr (join sep words)) = Ok words.
Proof.
  intros Hsep Fsep Hne Fw.
  pose proof (letter_runs_join sep words Hsep Fsep Fw) as R.
  apply letter_runs_unique in R.
  rewrite extract_text.
  - rewrite <- R. f_equal.
    clear R Hne. induction Fw as [|w ws Hw _ IH]; simpl; [reflexivity |].
    now rewrite IH, (Word_lower w Hw).
  - destruct words as [|w ws]; [congruence |].
    inversion Fw as [|? ? [Hw _] _]; subst. simpl.
    destruct w; [congruence |]. destruct ws; discriminate.
Qed.

Lemma extract_of_join_witness :
  text_of ", " <> [] /\ Forall separator (text_of ", ") /\
  [text_of "ben"; text_of "eze"; text_of "ben"] <> [] /\
  Forall Word [text_of "ben"; text_of "eze"; text_of "ben"] /\
  extract_valid_words_from_text_and_convert_to_lower_case
    (VStr (join (text_of ", ") [text_of "ben"; text_of "eze"; text_of "ben"]))
  = Ok [text_of "ben"; text_of "eze"; text_of "ben"].
Proof.
  assert (Fs : Forall separator (text_of ", ")) by (repeat constructor).
  assert (Fw : Forall Word [text_of "ben"; text_of "eze"; text_of "ben"]).
  { repeat constructor; discriminate. }
  split; [discriminate |]. split; [exact Fs |].
  split; [discriminate |]. split; [exact Fw |].
  apply (extract_of_join (text_of ", ")
           [text_of "ben"; text_of "eze"; text_of "ben"]);
    [discriminate | exact Fs | discriminate | exact Fw].
Defined.

(** ** Further properties of the queries *)

(** The highest frequency is the largest number of occurrences of a word
    among the extracted words, and some word has it. *)
Lemma highest_frequency_value text :
  text <> [] ->
  exists m,
    calculate_highest_frequency (VStr text) = Ok m /\
    (forall w, (occurrences (map lower (findall text)) w <= m)%Z) /\
    (exists w, occurrences (map lower (findall text)) w = m).
Proof.
  intros Hne. rewrite (highest_frequency_text text Hne).
  pose proof (sorted_reverse_head (FrequencyMap text)) as H.
  unfold FrequencyMap in *. set (words := map lower (findall text)) in *.
  destruct (sorted_reverse Z.ltb itemgetter_1 (Counter words))
    as [|[w m] rest].
  - apply Counter_empty in H. rewrite H. exists 0%Z.
    split; [reflexivity |]. split; [reflexivity | now exists []].
  - destruct H as [Hin Hmax]. exists m. split; [reflexivity |].
    apply Counter_items in Hin. destruct Hin as [Hw ->].
    split; [| now exists w].
    intros w'. destruct (in_dec str_eq_dec w' words) as [Hw' | Hw'].
    + apply (Hmax (w', occurrences words w')). now apply Counter_items.
    + rewrite (occurrences_absent words w' Hw').
      pose proof (occurrences_positive words w Hw). simpl. lia.
Qed.

Lemma occurrences_nonneg words w : (0 <= occurrences words w)%Z.
Proof. unfold occurrences. lia. Qed.

Lemma occurrences_bound words w :
  (occurrences words w <= Z.of_nat (length words))%Z.
Proof.
  unfold occurrences. induction words as [|x words IH]; simpl; [lia |].
  destruct (str_eq_dec x w); lia.
Qed.

Lemma frequency_value text w :
  text <> [] ->
  calculate_frequency_for_word (VStr text) (VStr w)
  = Ok (occurrences (map lower (findall text)) w).
Proof.
  intros Hne. rewrite (frequency_for_word_text text w Hne).
  unfold Counter_getitem, FrequencyMap. now rewrite Counter_get.
Qed.

(** X4.  For a non-empty text, the highest frequency is the largest
    answer the frequency query can give: the frequency of every word lies
    between 0 and the highest frequency, and some word has exactly the
    highest frequency. *)
Theorem highest_frequency_bounds_every_frequency (text : str) :
  text <> [] ->
  exists m,
    calculate_highest_frequency (VStr text) = Ok m /\
    (forall w, exists r,
        calculate_frequency_for_word (VStr text) (VStr w) = Ok r /\
        (0 <= r <= m)%Z) /\
    (exists w, calculate_frequency_for_word (VStr text) (VStr w) = Ok m).
Proof.
  intros Hne. destruct (highest_frequency_value text Hne) as (m & E & Hmax & w & Hw).
  exists m. split; [exact E |]. split.
  - intros w'. exists (occurrences (map lower (findall text)) w').
    split; [now apply frequency_value |].
    split; [apply occurrences_nonneg | apply Hmax].
  - exists w. rewrite <- Hw. now apply frequency_value.
Qed.

Lemma highest_frequency_bounds_every_frequency_witness :
  text_of "The sun shines over the lake" <> [] /\
  exists m,
    calculate_highest_frequency (VStr (text_of "The sun shines over the lake"))
    = Ok m /\
    (forall w, exists r,
        calculate_frequency_for_word
          (VStr (text_of "The sun shines over the lake")) (VStr w) = Ok r /\
        (0 <= r <= m)%Z) /\
    (exists w,
        calculate_frequency_for_word
          (VStr (text_of "The sun shines over the lake")) (VStr w) = Ok m).
Proof.
  split; [discriminate |].
  apply (highest_frequency_bounds_every_frequency
           (text_of "The sun shines over the lake")).
  discriminate.
Defined.

(** X5.  For a non-empty text and [n >= 1], the ranking starts with a
    word of the highest frequency: the count of the first entry is the
    result of the highest-frequency query.  The ranking is empty only for
    a text without letters, where the highest frequency is 0. *)
Theorem ranking_starts_with_highest_frequency (text : str) (n : Z) :
  text <> [] -> (1 <= n)%Z ->
  exists m ranked,
    calculate_highest_frequency (VStr text) = Ok m /\
    calculate_most_frequent_n_words (VStr text) (VInt n) = Ok ranked /\
    match ranked with
    | [] => m = 0%Z /\ Forall separator text
    | first :: _ => snd first = m
    end.
Proof.
  intros Hne Hn.
  destruct (highest_frequency_value text Hne) as (m & E & Hmax & w & Hw).
  exists m, (slice_to (sorted tuple_ltb rank_key (FrequencyMap text)) n).
  split; [exact E |]. split; [now apply most_frequent_text |].
  rewrite slice_to_nonneg by lia. unfold take.
  pose proof (sorted_perm tuple_ltb rank_key (FrequencyMap text)) as P.
  pose proof (rank_sort_ranked _ (Counter_NoDup (map lower (findall text)))) as S.
  fold (FrequencyMap text) in S.
  destruct (Z.to_nat n) as [|k] eqn:Ek; [lia |].
  destruct (sorted tuple_ltb rank_key (FrequencyMap text)) as [|[w0 c0] r].
  - apply Permutation_nil in P. simpl. split.
    + unfold FrequencyMap in P. apply Counter_empty in P.
      rewrite P in Hw. now rewrite <- Hw.
    + now apply FrequencyMap_empty.
  - simpl.
    assert (H0 : In (w0, c0) (FrequencyMap text))
      by (apply (Permutation_in _ P); now left).
    apply Counter_items in H0. destruct H0 as [Hw0 ->].
    pose proof (Hmax w0) as Hle.
    pose proof (occurrences_positive _ _ Hw0) as Hpos.
    destruct (in_dec str_eq_dec w (map lower (findall text))) as [Hin | Hin].
    + assert (Hwm : In (w, m) (FrequencyMap text))
        by (apply Counter_items; split; [exact Hin | now rewrite Hw]).
      apply (Permutation_in _ (Permutation_sym P)) in Hwm.
      destruct Hwm as [Heq | Hr].
      * now injection Heq as _ <-.
      * inversion S as [|? ? _ F]; subst. rewrite Forall_forall in F.
        destruct (F _ Hr) as [Hgt | [Heq _]]; simpl in *; lia.
    + rewrite (occurrences_absent _ _ Hin) in Hw. lia.
Qed.

Lemma ranking_starts_with_highest_frequency_witness :
  text_of "b a a" <> [] /\ (1 <= 1)%Z /\
  exists m ranked,
    calculate_highest_frequency (VStr (text_of "b a a")) = Ok m /\
    calculate_most_frequent_n_words (VStr (text_of "b a a")) (VInt 1)
    = Ok ranked /\
    match ranked with
    | [] => m = 0%Z /\ Forall separator (text_of "b a a")
    | first :: _ => snd first = m
    end.
Proof.
  split; [discriminate |]. split; [lia |].
  apply (ranking_starts_with_highest_frequency (text_of "b a a") 1);
    [discriminate | lia].
Defined.

Lemma Counter_distinct words :
  Permutation (map fst (Counter words)) (nodup str_eq_dec words).
Proof.
  apply NoDup_Permutation; [apply Counter_NoDup | apply NoDup_nodup |].
  intros w. now rewrite Counter_keys, nodup_In.
Qed.

(** X6.  For a non-empty text and [n >= 0], the ranking has [n] entries,
    or as many as there are distinct words among the extracted words if
    these are fewer than [n]. *)
Theorem ranking_length (text : str) (n : Z) :
  text <> [] -> (0 <= n)%Z ->
  exists words ranked,
    extract_valid_words_from_text_and_convert_to_lower_case (VStr text)
    = Ok words /\
    calculate_most_frequent_n_words (VStr text) (VInt n) = Ok ranked /\
    length ranked = Nat.min (Z.to_nat n) (length (nodup str_eq_dec words)).
Proof.
  intros Hne Hn.
  exists (map lower (findall text)),
         (slice_to (sorted tuple_ltb rank_key (FrequencyMap text)) n).
  split; [now apply extract_text |].
  split; [now apply most_frequent_text |].
  rewrite slice_to_nonneg by exact Hn. unfold take. rewrite length_firstn.
  f_equal.
  rewrite (Permutation_length (sorted_perm tuple_ltb rank_key _)).
  rewrite <- (Permutation_length (Counter_distinct _)).
  unfold FrequencyMap. now rewrite length_map.
Qed.

Lemma ranking_length_witness :
  text_of "b a a" <> [] /\ (0 <= 5)%Z /\
  exists words ranked,
    extract_valid_words_from_text_and_convert_to_lower_case
      (VStr (text_of "b a a")) = Ok words /\
    calculate_most_frequent_n_words (VStr (text_of "b a a")) (VInt 5)
    = Ok ranked /\
    length ranked = Nat.min (Z.to_nat 5) (length (nodup str_eq_dec words)).
Proof.
  split; [discriminate |]. split; [lia |].
  apply (ranking_length (text_of "b a a") 5); [discriminate | lia].
Defined.

(** X7.  Rankings of one text are prefixes of one another: for
    [0 <= k <= n], the ranking asked with [k] is the ranking asked with
    [n] cut down to its first [k] entries. *)
Theorem ranking_prefix (text : str) (k n : Z) :
  text <> [] -> (0 <= k <= n)%Z ->
  exists ranked_k ranked_n,
    calculate_most_frequent_n_words (VStr text) (VInt k) = Ok ranked_k /\
    calculate_most_frequent_n_words (VStr text) (VInt n) = Ok ranked_n /\
    ranked_k = take k ranked_n.
Proof.
  intros Hne Hkn.
  exists (slice_to (sorted tuple_ltb rank_key (FrequencyMap text)) k),
         (slice_to (sorted tuple_ltb rank_key (FrequencyMap text)) n).
  split; [now apply most_frequent_text |].
  split; [now apply most_frequent_text |].
  rewrite !slice_to_nonneg by lia. unfold take.
  rewrite firstn_firstn. f_equal. lia.
Qed.

Lemma ranking_prefix_witness :
  text_of "Ben! Ben!2 Eze?; Eze km kl0 kl jk nm" <> [] /\ (0 <= 2 <= 4)%Z /\
  exists ranked_k ranked_n,
    calculate_most_frequent_n_words
      (VStr (text_of "Ben! Ben!2 Eze?; Eze km kl0 kl jk nm")) (VInt 2)
    = Ok ranked_k /\
    calculate_most_frequent_n_words
      (VStr (text_of "Ben! Ben!2 Eze?; Eze km kl0 kl jk nm")) (VInt 4)
    = Ok ranked_n /\
    ranked_k = take 2 ranked_n.
Proof.
  split; [discriminate |]. split; [lia |].
  apply (ranking_prefix (text_of "Ben! Ben!2 Eze?; Eze km kl0 kl jk nm") 2 4);
    [discriminate | lia].
Defined.

(** X8.  For a non-empty text, the number of extracted words is at most
    half the length of the text, rounded up, and the highest frequency
    lies between 0 and the number of extracted words. *)
Theorem word_count_bounds (text : str) :
  text <> [] ->
  exists words m,
    extract_valid_words_from_text_and_convert_to_lower_case (VStr text)
    = Ok words /\
    calculate_highest_frequency (VStr text) = Ok m /\
    2 * length words <= length text + 1 /\
    (0 <= m <= Z.of_nat (length words))%Z.
Proof.
  intros Hne.
  destruct (highest_frequency_value text Hne) as (m & E & _ & w & Hw).
  exists (map lower (findall text)), m.
  split; [now apply extract_text |]. split; [exact E |]. split.
  - rewrite length_map.
    apply (letter_runs_count text (findall text) (findall_letter_runs text)).
  - rewrite <- Hw. split; [apply occurrences_nonneg | apply occurrences_bound].
Qed.

Lemma word_count_bounds_witness :
  text_of "a b a" <> [] /\
  exists words m,
    extract_valid_words_from_text_and_convert_to_lower_case
      (VStr (text_of "a b a")) = Ok words /\
    calculate_highest_frequency (VStr (text_of "a b a")) = Ok m /\
    2 * length words <= length (text_of "a b a") + 1 /\
    (0 <= m <= Z.of_nat (length words))%Z.
Proof.
  split; [discriminate |].
  apply (word_count_bounds (text_of "a b a")). discriminate.
Defined.

Lemma occurrences_perm w1 w2 w :
  Permutation w1 w2 -> occurrences w1 w = occurrences w2 w.
Proof.
  intros P. unfold occurrences. f_equal.
  induction P as [|x l l' _ IH|x y l|l l' l'' _ IH1 _ IH2]; simpl.
  - reflexivity.
  - now rewrite IH.
  - destruct (str_eq_dec x w), (str_eq_dec y w); reflexivity.
  - congruence.
Qed.

(** The counter depends on the words counted, up to the order of its
    items, and not on the order in which they come. *)
Lemma Counter_perm w1 w2 :
  Permutation w1 w2 -> Permutation (Counter w1) (Counter w2).
Proof.
  intros P.
  apply NoDup_Permutation;
    try (eapply NoDup_map_inv; apply Counter_NoDup).
  intros [w c]. pose proof (occurrences_perm w1 w2 w P) as E.
  split; intros H; apply (proj1 (Counter_items _ _ _)) in H;
    apply (proj2 (Counter_items _ _ _));
    destruct H as [H ->]; (split; [| congruence]).
  - now apply (Permutation_in w P).
  - now apply (Permutation_in w (Permutation_sym P)).
Qed.

Lemma sorted_reverse_head_perm d1 d2 :
  Permutation d1 d2 ->
  match sorted_reverse Z.ltb itemgetter_1 d1 with
  | [] => 0%Z
  | first :: _ => snd first
  end
  = match sorted_reverse Z.ltb itemgetter_1 d2 with
    | [] => 0%Z
    | first :: _ => snd first
    end.
Proof.
  intros P.
  pose proof (sorted_reverse_head d1) as H1.
  pose proof (sorted_reverse_head d2) as H2.
  destruct (sorted_reverse Z.ltb itemgetter_1 d1) as [|f1 r1],
           (sorted_reverse Z.ltb itemgetter_1 d2) as [|f2 r2].
  - reflexivity.
  - subst d1. apply Permutation_nil in P. subst d2.
    destruct H2 as [[] _].
  - subst d2. apply Permutation_sym, Permutation_nil in P. subst d1.
    destruct H1 as [[] _].
  - destruct H1 as [I1 M1], H2 as [I2 M2].
    apply (Permutation_in _ P) in I1.
    apply (Permutation_in _ (Permutation_sym P)) in I2.
    specialize (M1 _ I2). specialize (M2 _ I1). lia.
Qed.

(** X9.  The order of the words in the text does not matter: if the
    words extracted from two texts are the same up to their order, then
    each of the three queries gives the same answer on both texts,
    whatever the second argument is. *)
Theorem queries_ignore_word_order (t1 t2 arg : value) (w1 w2 : list str) :
  extract_valid_words_from_text_and_convert_to_lower_case t1 = Ok w1 ->
  extract_valid_words_from_text_and_convert_to_lower_case t2 = Ok w2 ->
  Permutation w1 w2 ->
  calculate_highest_frequency t1 = calculate_highest_frequency t2 /\
  calculate_frequency_for_word t1 arg = calculate_frequency_for_word t2 arg /\
  calculate_most_frequent_n_words t1 arg
  = calculate_most_frequent_n_words t2 arg.
Proof.
  intros E1 E2 P.
  pose proof (Counter_perm w1 w2 P) as PC.
  unfold calculate_highest_frequency, calculate_frequency_for_word,
    calculate_most_frequent_n_words.
  rewrite E1, E2. simpl. split; [| split].
  - pose proof (sorted_reverse_head_perm _ _ PC) as H.
    destruct (sorted_reverse Z.ltb itemgetter_1 (Counter w1)),
             (sorted_reverse Z.ltb itemgetter_1 (Counter w2));
      f_equal; exact H.
  - destruct (as_str arg) as [w|]; [| reflexivity].
    unfold Counter_getitem. rewrite !Counter_get.
    now rewrite (occurrences_perm w1 w2 w P).
  - destruct (as_int arg) as [n|]; [| reflexivity].
    do 2 f_equal. apply ranking_unique.
    + apply Counter_NoDup.
    + rewrite (sorted_perm tuple_ltb rank_key (Counter w1)). exact PC.
    + apply rank_sort_ranked, Counter_NoDup.
Qed.

Lemma queries_ignore_word_order_witness :
  extract_valid_words_from_text_and_convert_to_lower_case
    (VStr (text_of "km Ben, eze"))
  = Ok [text_of "km"; text_of "ben"; text_of "eze"] /\
  extract_valid_words_from_text_and_convert_to_lower_case
    (VStr (text_of "Ben: KM 7eze"))
  = Ok [text_of "ben"; text_of "km"; text_of "eze"] /\
  Permutation [text_of "km"; text_of "ben"; text_of "eze"]
    [text_of "ben"; text_of "km"; text_of "eze"] /\
  calculate_most_frequent_n_words (VStr (text_of "km Ben, eze")) (VInt 2)
  = calculate_most_frequent_n_words (VStr (text_of "Ben: KM 7eze")) (VInt 2).
Proof.
  assert (P : Permutation [text_of "km"; text_of "ben"; text_of "eze"]
                [text_of "ben"; text_of "km"; text_of "eze"])
    by apply perm_swap.
  split; [reflexivity |]. split; [reflexivity |]. split; [exact P |].
  apply (queries_ignore_word_order
           (VStr (text_of "km Ben, eze")) (VStr (text_of "Ben: KM 7eze"))
           (VInt 2) _ _ eq_refl eq_refl P).
Defined.

Lemma total_count_perm d1 d2 :
  Permutation d1 d2 -> total_count d1 = total_count d2.
Proof.
  unfold total_count.
  induction 1 as [|x l l' _ IH|x y l|l l' l'' _ IH1 _ IH2]; simpl; lia.
Qed.

(** X10.  For a non-empty text and an [n] that is at least the number of
    distinct words, the ranking lists every distinct extracted word
    once, with the number of its occurrences among the extracted words,
    and nothing else; its counts add up to the number of extracted
    words. *)
Theorem full_ranking_lists_every_word (text : str) (n : Z) :
  text <> [] ->
  (Z.of_nat (length (nodup str_eq_dec (map lower (findall text)))) <= n)%Z ->
  exists words ranked,
    extract_valid_words_from_text_and_convert_to_lower_case (VStr text)
    = Ok words /\
    calculate_most_frequent_n_words (VStr text) (VInt n) = Ok ranked /\
    NoDup (map fst ranked) /\
    (forall w c, In (w, c) ranked <-> In w words /\ c = occurrences words w) /\
    total_count ranked = Z.of_nat (length words).
Proof.
  intros Hne Hn. set (words := map lower (findall text)) in *.
  pose proof (sorted_perm tuple_ltb rank_key (Counter words)) as P.
  exists words, (sorted tuple_ltb rank_key (Counter words)).
  split; [now apply extract_text |]. split.
  { rewrite (most_frequent_text text n Hne). f_equal. apply slice_to_all.
    unfold FrequencyMap. fold words.
    rewrite (Permutation_length P).
    rewrite <- (length_map fst), (Permutation_length (Counter_distinct words)).
    exact Hn. }
  split; [| split].
  - eapply Permutation_NoDup; [| apply Counter_NoDup].
    apply Permutation_map, Permutation_sym, P.
  - intros w c. rewrite <- Counter_items. split; apply Permutation_in;
      [exact P | now apply Permutation_sym].
  - rewrite <- Counter_total. now apply total_count_perm.
Qed.

Lemma full_ranking_lists_every_word_witness :
  text_of "b a a" <> [] /\
  (Z.of_nat (length (nodup str_eq_dec (map lower (findall (text_of "b a a")))))
   <= 2)%Z /\
  exists words ranked,
    extract_valid_words_from_text_and_convert_to_lower_case
      (VStr (text_of "b a a")) = Ok words /\
    calculate_most_frequent_n_words (VStr (text_of "b a a")) (VInt 2)
    = Ok ranked /\
    NoDup (map fst ranked) /\
    (forall w c, In (w, c) ranked <-> In w words /\ c = occurrences words w) /\
    total_count ranked = Z.of_nat (length words).
Proof.
  split; [discriminate |]. split; [vm_compute; discriminate |].
  apply (full_ranking_lists_every_word (text_of "b a a") 2);
    [discriminate | vm_compute; discriminate].
Defined.

(** X11.  Putting two texts together with a separator character between
    them cannot lower the highest frequency and cannot raise it beyond
    the sum: the highest frequency of the joined text is at least that of
    each part and at most the sum of the two. *)
Theorem highest_frequency_of_joined_texts (t1 t2 : str) (c : char) (m1 m2 : Z) :
  separator c ->
  calculate_highest_frequency (VStr t1) = Ok m1 ->
  calculate_highest_frequency (VStr t2) = Ok m2 ->
  exists m,
    calculate_highest_frequency (VStr (t1 ++ c :: t2)) = Ok m /\
    (Z.max m1 m2 <= m <= m1 + m2)%Z.
Proof.
  intros Hc E1 E2.
  assert (N1 : t1 <> []) by (intros ->; discriminate).
  assert (N2 : t2 <> []) by (intros ->; discriminate).
  assert (N : t1 ++ c :: t2 <> []) by (destruct t1; discriminate).
  destruct (highest_frequency_value t1 N1) as (m1' & E1' & Max1 & u1 & H1).
  destruct (highest_frequency_value t2 N2) as (m2' & E2' & Max2 & u2 & H2).
  destruct (highest_frequency_value _ N) as (m & E & Max & u & H).
  rewrite E1 in E1'. injection E1' as <-.
  rewrite E2 in E2'. injection E2' as <-.
  exists m. split; [exact E |].
  rewrite (findall_app_separator t1 c t2 Hc), map_app in Max, H.
  pose proof (Max u1) as B1. pose proof (Max u2) as B2.
  rewrite occurrences_app in B1, B2, H.
  pose proof (occurrences_nonneg (map lower (findall t2)) u1).
  pose proof (occurrences_nonneg (map lower (findall t1)) u2).
  pose proof (Max1 u). pose proof (Max2 u). lia.
Qed.

Lemma highest_frequency_of_joined_texts_witness :
  separator 32%N /\
  calculate_highest_frequency (VStr (text_of "Ben! Ben")) = Ok 2%Z /\
  calculate_highest_frequency (VStr (text_of "eze ben")) = Ok 1%Z /\
  exists m,
    calculate_highest_frequency
      (VStr (text_of "Ben! Ben" ++ 32%N :: text_of "eze ben")) = Ok m /\
    (Z.max 2 1 <= m <= 2 + 1)%Z.
Proof.
  split; [reflexivity |]. split; [reflexivity |]. split; [reflexivity |].
  apply (highest_frequency_of_joined_texts
           (text_of "Ben! Ben") (text_of "eze ben") 32%N 2 1
           eq_refl eq_refl eq_refl).
Defined.
